(** * scrobble_songs.py: retry, batch loop and result logs

    A shallow embedding of [src/scrobble_songs.py].  The script submits a
    batch of listen events to Last.fm through [pylast], retrying server
    errors with exponential backoff, counting consecutive failures, and
    finally appending to two log files.

    - Python dicts are [gmap string json]; a missing key raises [KeyError].
    - The network object is an abstract state [Net] with one operation,
      the remote [scrobble] call, which returns or raises an exception
      (a subclass of [Exception], carried with its text [str(e)]).
    - [time.sleep], [click.echo] and the remote call are recorded as
      events, returned in program order by every operation; the notices
      are kept by their arguments, not by their wording, and the sleep
      of [delay + random.uniform(0, 0.2)] by its [delay].
    - The two log files are fields of the world the program runs in;
      [failed_songs.json], when it exists, holds an array of dicts, which
      is all the program ever writes there.
    - [click.echo] and the file operations do not fail, nor does
      [time.sleep] of the whole numbers of seconds the program passes
      to it, which are never negative.  The inter-item sleep of
      [delay + random.uniform(0, 0.2)] seconds can: [time.sleep] raises
      for a negative argument and for one too large, so it is an
      operation of the environment, which returns or raises. *)

From stdpp Require Import gmap strings list list_numbers fin_maps pretty.
From Stdlib Require Import ZArith QArith Ascii.

Open Scope Z_scope.

(** ** Values *)

(** What [json.load] produces. *)
#[warnings="-register-all"]
Inductive json : Type :=
  | JNull
  | JBool (b : bool)
  | JInt (z : Z)
  | JStr (s : string)
  | JArr (l : list json)
  | JObj (m : gmap string json).

(** A song is one dict of the loaded array. *)
Abbreviation Song := (gmap string json).

(** ** Exceptions *)

(** The classes the program tells apart: the three [pylast] errors named
    in the first [except] clause, [KeyError] (raised by [song[...]]), and
    any other subclass of [Exception]. *)
Inductive exn_class : Type :=
  | NetworkError
  | MalformedResponseError
  | WSError
  | KeyError
  | OtherException.

(** An exception is carried with its text [str(e)]. *)
Record exn : Type := Exn { exn_cls : exn_class; exn_str : string }.

Definition is_pylast_error (c : exn_class) : bool :=
  match c with
  | NetworkError | MalformedResponseError | WSError => true
  | KeyError | OtherException => false
  end.

(** ** Strings *)

(** [str.lower] on ASCII text. *)
Definition lower_ascii (c : ascii) : ascii :=
  let n := nat_of_ascii c in
  if ((65 <=? n) && (n <=? 90))%nat then ascii_of_nat (n + 32) else c.

Fixpoint lower (s : string) : string :=
  match s with
  | EmptyString => EmptyString
  | String c t => String (lower_ascii c) (lower t)
  end.

(** [needle in hay] on strings. *)
Fixpoint py_in (needle hay : string) : bool :=
  String.prefix needle hay ||
  match hay with
  | EmptyString => false
  | String _ t => py_in needle t
  end.

(** ['502', '500', '503', 'timeout', 'rate limit'] *)
Definition retry_codes : list string :=
  ["502"; "500"; "503"; "timeout"; "rate limit"].

(** [any(code in error_str for code in [...])] *)
Definition is_server_error (error_str : string) : bool :=
  existsb (λ code, py_in code error_str) retry_codes.

(** [os.path.basename]: what follows the last slash. *)
Fixpoint basename (p : string) : string :=
  match p with
  | EmptyString => EmptyString
  | String c t =>
      if py_in "/" t then basename t
      else if Ascii.eqb c "/" then t else p
  end.

(** The line feed written after each file name. *)
Definition newline : string := String (ascii_of_nat 10) EmptyString.

(** ** Dict access *)

(** [d[k]] *)
Definition py_getitem (d : Song) (k : string) : json + exn :=
  match d !! k with
  | Some v => inl v
  | None => inr (Exn KeyError ("'" +:+ k +:+ "'"))
  end.

(** [d.get(k, dflt)] *)
Definition py_get (d : Song) (k : string) (dflt : json) : json :=
  default dflt (d !! k).

(** ** Events *)

(** The notices written with [click.echo], by their arguments. *)
Inductive notice : Type :=
  | ServerErrorNotice (attempt_no max_retries wait_time : Z) (e : exn)
  | ProgressNotice (pos total success_count error_count : Z)
  | ItemErrorNotice (pos total : Z) (artist track : json)
      (error_msg : option string)
  | PenaltyNotice (wait_time : Z)
  | HaltNotice
  | CooldownNotice (processed : Z)
  | AddedNotice (file_basename : string)
  | WroteNotice (n : Z)
  | FinishedNotice (file_basename : string) (success_count error_count total : Z).

Inductive event : Type :=
  | Scrobble (artist title timestamp album : json)
  | Sleep (seconds : Z)
  | SleepJitter (delay : Q)
  | Echo (n : notice).

Definition is_scrobble (e : event) : bool :=
  match e with Scrobble _ _ _ _ => true | _ => false end.

Definition is_sleep (e : event) : bool :=
  match e with Sleep _ | SleepJitter _ => true | _ => false end.

Definition is_jitter (e : event) : bool :=
  match e with SleepJitter _ => true | _ => false end.

(** [time.sleep] of a whole number of seconds: backoff, penalty or
    cooldown. *)
Definition is_timed_sleep (e : event) : bool :=
  match e with Sleep _ => true | _ => false end.

(** The remote calls of a trace, and its sleeps, in order. *)
Definition calls (evs : list event) : list event := List.filter is_scrobble evs.

Definition sleeps (evs : list event) : list event := List.filter is_sleep evs.

(** What a computation ends with: a value, or an exception that
    nothing caught. *)
Inductive outcome (A : Type) : Type :=
  | Val (a : A)
  | Exc (e : exn).
Arguments Val {A} a.
Arguments Exc {A} e.

(** ** The world the program runs in

    [net] is the state of the remote service; [scrobbled_files] is the
    text of [../logs/scrobbled_files.txt] (empty when the file is
    absent: mode ['a'] creates it); [failed_songs_json] is the array in
    [../logs/failed_songs.json], or [None] when that file does not
    exist. *)
Record world (Net : Type) : Type := mkWorld {
  net : Net;
  scrobbled_files : string;
  failed_songs_json : option (list Song);
}.
Arguments mkWorld {Net} net scrobbled_files failed_songs_json.
Arguments net {Net} w.
Arguments scrobbled_files {Net} w.
Arguments failed_songs_json {Net} w.

Definition set_net {Net} (n : Net) (w : world Net) : world Net :=
  mkWorld n (scrobbled_files w) (failed_songs_json w).

(** ** A scripted client

    The service state is the list of the outcomes still to come, one per
    call; once the script is used up every call returns. *)
Definition script : Type := list (option exn).

Definition scripted (s : script) (artist title timestamp album : json)
  : option exn * script :=
  match s with
  | [] => (None, [])
  | r :: t => (r, t)
  end.

(** Three errors: a server error, a network error with no retry code in
    its text, and a rejection by the service. *)
Definition e503 : exn := Exn WSError "503 Service Unavailable".
Definition e_reset : exn :=
  Exn NetworkError "NetworkError: Connection reset by peer".
Definition e_invalid : exn := Exn WSError "Invalid parameters".

(** A client with no state that rejects every call. *)
Definition rejecting (n : unit) (artist title timestamp album : json)
  : option exn * unit :=
  (Some e_invalid, tt).

(** A client with no state that accepts every call. *)
Definition accepting (n : unit) (artist title timestamp album : json)
  : option exn * unit :=
  (None, tt).

(** Two inter-item sleeps: one that always returns, as [time.sleep] does
    for a delay that is not negative, and one that always raises, as it
    does for a delay below [-0.2]. *)
Definition accepting_sleep (delay : Q) (i : Z) : option exn := None.


(** A song with the two required fields. *)
Definition song_of (artist track : string) : Song :=
  <["artistName" := JStr artist]> (<["trackName" := JStr track]> ∅).

(** Three songs, and the world of a first run: no log file yet. *)
Definition song1 : Song := song_of "Artist" "One".
Definition song2 : Song := song_of "Artist" "Two".
Definition song3 : Song := song_of "Artist" "Three".

Definition fresh {Net} (n : Net) : world Net := mkWorld n EmptyString None.

Section Program.

(** The remote service: a state and the one call made on it, which
    returns ([None]) or raises. *)
Variable Net : Type.
Variable remote_scrobble :
  Net → json → json → json → json → option exn * Net.

(** [time.sleep(delay + random.uniform(0, 0.2))] in iteration [i] of the
    loop of [main]: it returns ([None]) or raises, by the delay and the
    value drawn. *)
Variable jitter_sleep : Q → Z → option exn.

(** ** The monad of the program *)

Abbreviation World := (world Net).

(** State over [World], a trace of events, and exceptions. *)
Definition M (A : Type) : Type := World → outcome A * list event * World.

Definition ret {A} (a : A) : M A := λ w, (Val a, [], w).

Definition raise {A} (e : exn) : M A := λ w, (Exc e, [], w).

Definition bind {A B} (m : M A) (f : A → M B) : M B := λ w,
  match m w with
  | (Val a, evs, w1) =>
      match f a w1 with (r, evs', w2) => (r, evs ++ evs', w2) end
  | (Exc e, evs, w1) => (Exc e, evs, w1)
  end.

Notation "'let*' x ':=' m 'in' k" := (bind m (λ x, k))
  (at level 10, x name, m at level 100, k at level 200, only parsing).
Notation "m '>>' k" := (bind m (λ _, k))
  (at level 100, k at level 200, right associativity, only parsing).

Definition emit (e : event) : M unit := λ w, (Val tt, [e], w).

Definition echo (n : notice) : M unit := emit (Echo n).

Definition sleep (seconds : Z) : M unit := emit (Sleep seconds).

(** [try: ... except Exception as e]: the exception becomes a value. *)
Definition try {A} (m : M A) : M (A + exn) := λ w,
  match m w with
  | (Val a, evs, w1) => (Val (inl a), evs, w1)
  | (Exc e, evs, w1) => (Val (inr e), evs, w1)
  end.

(** One remote call: it is recorded, the service moves on, and the call
    returns or raises. *)
Definition call_remote (artist title timestamp album : json) : M unit := λ w,
  let '(r, n) := remote_scrobble (net w) artist title timestamp album in
  (match r with None => Val tt | Some e => Exc e end,
   [Scrobble artist title timestamp album],
   set_net n w).

(** Line 133: the inter-item sleep, recorded when it returns. *)
Definition sleep_jitter (delay : Q) (i : Z) : M unit :=
  match jitter_sleep delay i with
  | None => emit (SleepJitter delay)
  | Some e => raise e
  end.

Definition lift_get (r : json + exn) : M json :=
  match r with
  | inl v => ret v
  | inr e => raise e
  end.

(** ** scrobble_with_retry *)

(** [network.scrobble(artist=..., title=..., timestamp=..., album=...)]:
    the arguments are evaluated left to right, then the call is made. *)
Definition network_scrobble (song : Song) : M unit :=
  let* artist := lift_get (py_getitem song "artistName") in
  let* title := lift_get (py_getitem song "trackName") in
  let timestamp := py_get song "timestamp" (JInt 1767253534) in
  let album := py_get song "albumName" (JStr EmptyString) in
  call_remote artist title timestamp album.

(** The body of [for attempt in range(max_retries)], over the attempts
    that are left; a [return] ends the loop, falling off its end reaches
    the last line of the function. *)
Fixpoint retry_loop (song : Song) (max_retries : Z) (attempts : list Z)
  : M (bool * option string) :=
  match attempts with
  | [] => ret (false, Some "Max retries exceeded")
  | attempt :: rest =>
      let* r := try (network_scrobble song) in
      match r with
      | inl _ => ret (true, None)
      | inr e =>
          if is_pylast_error (exn_cls e) then
            let error_str := lower (exn_str e) in
            if is_server_error error_str then
              if attempt <? max_retries - 1 then
                let wait_time := 60 `min` (2 ^ (attempt + 1)) in
                echo (ServerErrorNotice (attempt + 1) max_retries wait_time e) >>
                sleep wait_time >>
                retry_loop song max_retries rest
              else
                ret (false,
                      Some ("Server error after " +:+ pretty max_retries
                            +:+ " attempts: " +:+ exn_str e))
            else
              ret (false, Some ("API error: " +:+ exn_str e))
          else
            ret (false, Some ("Unexpected error: " +:+ exn_str e))
      end
  end.

Definition scrobble_with_retry (song : Song) (max_retries : Z)
  : M (bool * option string) :=
  retry_loop song max_retries (seqZ 0 max_retries).

(** ** main *)

(** [l[start_index:]] *)
Definition slice_from {A} (l : list A) (start_index : Z) : list A :=
  let n := Z.of_nat (length l) in
  let k := if start_index <? 0 then 0 `max` (n + start_index) else start_index in
  drop (Z.to_nat k) l.

(** The four variables the loop of [main] updates. *)
Record BatchState : Type := mkBatch {
  success_count : Z;
  error_count : Z;
  failed_songs : list Song;
  consecutive_errors : Z;
}.

Definition initial_state : BatchState := mkBatch 0 0 [] 0.

(** The value stored under ['error']: [error_msg] is [None] or a string. *)
Definition error_json (error_msg : option string) : json :=
  match error_msg with
  | None => JNull
  | Some s => JStr s
  end.

(** [{**song, 'error': error_msg}] *)
Definition with_error (song : Song) (error_msg : option string) : Song :=
  <["error" := error_json error_msg]> song.

Section Loop.

Variable start_index : Z.
Variable delay : Q.
(** [len(songs)] *)
Variable n_songs : Z.

(** Lines 109-138: what one iteration does once [scrobble_with_retry]
    has returned.  The boolean is [true] when the iteration ends in
    [break]. *)
Definition after_attempt (i : Z) (song : Song) (res : bool * option string)
    (st : BatchState) : M (BatchState * bool) :=
  let '(success, error_msg) := res in
  let* st1 :=
    if success then
      let st1 := mkBatch (success_count st + 1) (error_count st)
                   (failed_songs st) 0 in
      (if (start_index + i + 1) `mod` 100 =? 0 then
         echo (ProgressNotice (start_index + i + 1) (start_index + n_songs)
                 (success_count st1) (error_count st1))
       else ret tt) >>
      ret st1
    else
      let st1 := mkBatch (success_count st) (error_count st + 1)
                   (failed_songs st ++ [with_error song error_msg])
                   (consecutive_errors st + 1) in
      let* artist := lift_get (py_getitem song "artistName") in
      let* track := lift_get (py_getitem song "trackName") in
      echo (ItemErrorNotice (i + 1) n_songs artist track error_msg) >>
      (if consecutive_errors st1 >? 3 then
         let wait_time := 60 `min` (consecutive_errors st1 * 10) in
         echo (PenaltyNotice wait_time) >>
         sleep wait_time
       else ret tt) >>
      ret st1
  in
  if consecutive_errors st1 >? 10 then
    echo HaltNotice >>
    ret (st1, true)
  else
    sleep_jitter delay i >>
    (if (i + 1) `mod` 500 =? 0 then
       echo (CooldownNotice (i + 1)) >>
       sleep 120
     else ret tt) >>
    ret (st1, false).

(** The body of [for i, song in enumerate(songs)]. *)
Definition loop_body (i : Z) (song : Song) (st : BatchState)
  : M (BatchState * bool) :=
  let* res := scrobble_with_retry song 5 in
  after_attempt i song res st.

(** The loop, over the items that are left. *)
Fixpoint main_loop (i : Z) (songs : list Song) (st : BatchState)
  : M BatchState :=
  match songs with
  | [] => ret st
  | song :: rest =>
      let* r := loop_body i song st in
      let '(st1, stop) := r in
      if stop then ret st1 else main_loop (i + 1) rest st1
  end.

End Loop.

(** [append_json]: read the array (empty when the file does not exist),
    extend it, write it back. *)
Definition append_json (new_data : list Song) : M unit := λ w,
  let data :=
    match failed_songs_json w with
    | Some data => data
    | None => []
    end in
  (Val tt, [], mkWorld (net w) (scrobbled_files w) (Some (data ++ new_data))).

(** Lines 142-144: one line with the file name is appended. *)
Definition write_scrobbled_file (file_basename : string) : M unit := λ w,
  (Val tt, [Echo (AddedNotice file_basename)],
   mkWorld (net w) (scrobbled_files w +:+ file_basename +:+ newline)
     (failed_songs_json w)).

(** Lines 147-149: [if failed_songs: append_json(...)]. *)
Definition record_failures (failed : list Song) : M unit :=
  match failed with
  | [] => ret tt
  | _ :: _ =>
      append_json failed >>
      echo (WroteNotice (Z.of_nat (length failed)))
  end.

(** Lines 140-153. *)
Definition write_results (file_name : string) (n_songs : Z)
    (st : BatchState) : M unit :=
  let file_basename := basename file_name in
  write_scrobbled_file file_basename >>
  record_failures (failed_songs st) >>
  echo (FinishedNotice file_basename (success_count st) (error_count st)
          n_songs).

(** [main(file, start_index, delay)], on the array [json.load] read
    from [file] and the name of that file.  The Python function returns
    nothing; here it returns the last values of the four variables. *)
Definition main (file_name : string) (file_songs : list Song)
    (start_index : Z) (delay : Q) : M BatchState :=
  let songs := slice_from file_songs start_index in
  let n_songs := Z.of_nat (length songs) in
  let* st := main_loop start_index delay n_songs 0 songs initial_state in
  write_results file_name n_songs st >>
  ret st.

(** ** Vocabulary of the statements *)

(** The two keys read with [song[...]] are there. *)
Definition well_formed (song : Song) : Prop :=
  is_Some (song !! "artistName") ∧ is_Some (song !! "trackName").

(** Every inter-item sleep of a run with this delay returns: the delay
    is one [time.sleep] accepts, whatever is drawn. *)
Definition sleep_accepts (delay : Q) : Prop :=
  ∀ i, jitter_sleep delay i = None.

(** The call made for a song, as it appears in the trace. *)
Definition call_event (song : Song) : event :=
  Scrobble (default JNull (song !! "artistName"))
           (default JNull (song !! "trackName"))
           (py_get song "timestamp" (JInt 1767253534))
           (py_get song "albumName" (JStr EmptyString)).

(** What the service answers to that call in state [n]. *)
Definition answer (song : Song) (n : Net) : option exn * Net :=
  remote_scrobble n (default JNull (song !! "artistName"))
                    (default JNull (song !! "trackName"))
                    (py_get song "timestamp" (JInt 1767253534))
                    (py_get song "albumName" (JStr EmptyString)).

(** The answers to [k] calls in a row for the same song. *)
Fixpoint answers (song : Song) (n : Net) (k : nat) : list (option exn) * Net :=
  match k with
  | O => ([], n)
  | S k' =>
      let '(r, n1) := answer song n in
      let '(rs, n2) := answers song n1 k' in
      (r :: rs, n2)
  end.

(** The errors the retry loop sleeps on: one of the three [pylast]
    classes, with a retry code in the lower-cased text. *)
Definition transient (e : exn) : bool :=
  is_pylast_error (exn_cls e) && is_server_error (lower (exn_str e)).

(** The message returned for an error that is not retried. *)
Definition failure_message (e : exn) : string :=
  if is_pylast_error (exn_cls e) then "API error: " +:+ exn_str e
  else "Unexpected error: " +:+ exn_str e.

(** [min(60, 2 ** (attempt + 1))] for the 1-based attempt number. *)
Definition backoff (attempt_no : Z) : Z := 60 `min` (2 ^ attempt_no).

(** The trace of the attempts that raised the transient errors [es],
    the first of them being attempt [attempt] (0-based). *)
Fixpoint backoff_events (song : Song) (max_retries attempt : Z)
    (es : list exn) : list event :=
  match es with
  | [] => []
  | e :: t =>
      [call_event song;
       Echo (ServerErrorNotice (attempt + 1) max_retries
               (backoff (attempt + 1)) e);
       Sleep (backoff (attempt + 1))]
      ++ backoff_events song max_retries (attempt + 1) t
  end.

(** The state after an item, by what [scrobble_with_retry] returned. *)
Definition next_state (song : Song) (res : bool * option string)
    (st : BatchState) : BatchState :=
  if res.1 then
    mkBatch (success_count st + 1) (error_count st) (failed_songs st) 0
  else
    mkBatch (success_count st) (error_count st + 1)
      (failed_songs st ++ [with_error song res.2])
      (consecutive_errors st + 1).

(** The entries of the failure list for a history of items, each with
    what [scrobble_with_retry] returned for it. *)
Definition failures (hist : list (Song * (bool * option string)))
  : list Song :=
  (λ p, with_error p.1 p.2.2) <$> List.filter (λ p, negb p.2.1) hist.

Section Points.

Variable start_index : Z.
Variable delay : Q.
Variable songs : list Song.
Variable w0 : World.

(** The events between [scrobble_with_retry] and the test of the halt
    threshold, and those after it. *)
Definition progress_events (i : Z) (st : BatchState) : list event :=
  if (start_index + i + 1) `mod` 100 =? 0 then
    [Echo (ProgressNotice (start_index + i + 1)
             (start_index + Z.of_nat (length songs))
             (success_count st) (error_count st))]
  else [].

Definition penalty_events (consecutive : Z) : list event :=
  if consecutive >? 3 then
    [Echo (PenaltyNotice (60 `min` (consecutive * 10)));
     Sleep (60 `min` (consecutive * 10))]
  else [].

Definition cooldown_events (processed : Z) : list event :=
  if processed `mod` 500 =? 0 then
    [Echo (CooldownNotice processed); Sleep 120]
  else [].

Definition item_error_event (i : Z) (song : Song)
    (error_msg : option string) : event :=
  Echo (ItemErrorNotice (i + 1) (Z.of_nat (length songs))
          (default JNull (song !! "artistName"))
          (default JNull (song !! "trackName")) error_msg).

(** All the events of an iteration after [scrobble_with_retry], by the
    state [st'] the iteration leaves. *)
Definition item_events (i : Z) (song : Song) (res : bool * option string)
    (st' : BatchState) : list event :=
  (if res.1 then progress_events i st'
   else item_error_event i song res.2
        :: penalty_events (consecutive_errors st'))
  ++ (if consecutive_errors st' >? 10 then [Echo HaltNotice]
      else SleepJitter delay :: cooldown_events (i + 1)).

(** The notices of lines 140-153. *)
Definition flush_events (file_name : string) (st : BatchState) : list event :=
  Echo (AddedNotice (basename file_name))
  :: match failed_songs st with
     | [] => []
     | _ :: _ => [Echo (WroteNotice (Z.of_nat (length (failed_songs st))))]
     end
  ++ [Echo (FinishedNotice (basename file_name) (success_count st)
              (error_count st) (Z.of_nat (length songs)))].

(** The points of a run of the loop over [songs] from the world [w0]:
    the start, and the end of each iteration.  A point has the items
    processed so far, each with the result of [scrobble_with_retry], the
    items not reached yet, the four variables, whether the iteration
    ended in [break], and the world. *)
Inductive reach
  : list (Song * (bool * option string)) → list Song → BatchState → bool →
    World → Prop :=
  | reach_start : reach [] songs initial_state false w0
  | reach_item hist song todo st w res evs1 w1 st' stop evs2 w2 :
      reach hist (song :: todo) st false w →
      scrobble_with_retry song 5 w = (Val res, evs1, w1) →
      after_attempt start_index delay (Z.of_nat (length songs))
        (Z.of_nat (length hist)) song res st w1 = (Val (st', stop), evs2, w2) →
      reach (hist ++ [(song, res)]) todo st' stop w2.

End Points.

(** * The retry operation *)

Lemma bind_ret_l {A B} (a : A) (f : A → M B) (w : World) :
  bind (ret a) f w = f a w.
Proof. unfold bind, ret. by destruct (f a w) as [[r evs] w']. Qed.

(** For a song with both keys, [network.scrobble(...)] is one call. *)
Lemma network_scrobble_wf (song : Song) (w : World) :
  well_formed song →
  network_scrobble song w =
    (match (answer song (net w)).1 with None => Val tt | Some e => Exc e end,
     [call_event song], set_net (answer song (net w)).2 w).
Proof.
  intros [[a Ha] [t Ht]].
  unfold network_scrobble, py_getitem, answer, call_event.
  rewrite Ha, Ht. simpl. rewrite !bind_ret_l. unfold call_remote.
  by destruct (remote_scrobble _ _ _ _ _) as [[e|] n].
Qed.

(** One turn of the retry loop, by the answer of the service. *)
Lemma retry_loop_step (song : Song) (max_retries attempt : Z)
    (rest : list Z) (w : World) :
  well_formed song →
  retry_loop song max_retries (attempt :: rest) w =
    match answer song (net w) with
    | (None, n) => (Val (true, None), [call_event song], set_net n w)
    | (Some e, n) =>
        if transient e then
          if attempt <? max_retries - 1 then
            match retry_loop song max_retries rest (set_net n w) with
            | (r, evs, w') =>
                (r, backoff_events song max_retries attempt [e] ++ evs, w')
            end
          else
            (Val (false,
                  Some ("Server error after " +:+ pretty max_retries
                        +:+ " attempts: " +:+ exn_str e)),
             [call_event song], set_net n w)
        else (Val (false, Some (failure_message e)),
              [call_event song], set_net n w)
    end.
Proof.
  intros Hwf. simpl. unfold bind at 1, try.
  rewrite (network_scrobble_wf _ _ Hwf).
  destruct (answer song (net w)) as [[e|] n]; simpl; [|done].
  unfold transient, failure_message.
  destruct (is_pylast_error (exn_cls e)); simpl; [|done].
  destruct (is_server_error (lower (exn_str e))); simpl; [|done].
  destruct (attempt <? max_retries - 1); simpl; [|done].
  unfold bind, echo, sleep, emit. simpl.
  by destruct (retry_loop song max_retries rest (set_net n w)) as [[r evs] w'].
Qed.

Lemma set_net_net (w : World) : set_net (net w) w = w.
Proof. by destruct w. Qed.

Lemma set_net_twice (n n' : Net) (w : World) :
  set_net n (set_net n' w) = set_net n w.
Proof. done. Qed.

Lemma answers_snoc (song : Song) (k : nat) : ∀ (n : Net),
  answers song n (S k) =
    (let '(rs, n1) := answers song n k in
     let '(r, n2) := answer song n1 in
     (rs ++ [r], n2)).
Proof.
  induction k as [|k IH]; intros n.
  - simpl. by destruct (answer song n) as [r n1].
  - change (answers song n (S (S k))) with
      (let '(r, n1) := answer song n in
       let '(rs, n2) := answers song n1 (S k) in (r :: rs, n2)).
    change (answers song n (S k)) with
      (let '(r, n1) := answer song n in
       let '(rs, n2) := answers song n1 k in (r :: rs, n2)).
    destruct (answer song n) as [r n1]. rewrite IH.
    destruct (answers song n1 k) as [rs n2].
    by destruct (answer song n2) as [r' n3].
Qed.

(** A run of transient errors with attempts to spare: the loop sleeps
    after each and goes on with the attempts that follow. *)
Lemma retry_loop_transients (song : Song) (max_retries : Z) (rest : list Z)
    (es : list exn) : ∀ (attempt : Z) (w : World) (n : Net),
  well_formed song →
  Forall (λ e, transient e = true) es →
  answers song (net w) (length es) = (Some <$> es, n) →
  attempt + Z.of_nat (length es) ≤ max_retries - 1 →
  retry_loop song max_retries (seqZ attempt (Z.of_nat (length es)) ++ rest) w =
    match retry_loop song max_retries rest (set_net n w) with
    | (r, evs, w') => (r, backoff_events song max_retries attempt es ++ evs, w')
    end.
Proof.
  induction es as [|e es IH]; intros attempt w n Hwf Htr Hans Hle.
  - simpl in *. injection Hans as <-. rewrite set_net_net.
    by destruct (retry_loop song max_retries rest w) as [[r evs] w'].
  - apply Forall_cons in Htr as [He Htr].
    rewrite length_cons, Nat2Z.inj_succ in *.
    rewrite seqZ_cons by lia. rewrite Z.pred_succ.
    change ((attempt :: ?l) ++ rest) with (attempt :: (l ++ rest)).
    rewrite retry_loop_step by done.
    simpl in Hans. destruct (answer song (net w)) as [r n1].
    destruct (answers song n1 (length es)) as [rs n2] eqn:Hrs.
    injection Hans as -> -> ->. rewrite He.
    replace (attempt <? max_retries - 1) with true
      by (symmetry; apply Z.ltb_lt; lia).
    rewrite (IH (Z.succ attempt) (set_net n1 w) n) by (done || lia).
    rewrite set_net_twice.
    destruct (retry_loop song max_retries rest (set_net n w)) as [[r evs] w'].
    simpl. by rewrite Z.add_1_r.
Qed.

Lemma sleeps_backoff_events (song : Song) (max_retries : Z) (es : list exn) :
  ∀ attempt : Z,
  sleeps (backoff_events song max_retries attempt es) =
    (λ a, Sleep (backoff a)) <$> seqZ (attempt + 1) (Z.of_nat (length es)).
Proof.
  induction es as [|e es IH]; intros attempt; [done|].
  rewrite length_cons, Nat2Z.inj_succ, seqZ_cons by lia.
  rewrite Z.pred_succ. simpl. unfold sleeps in IH. rewrite IH.
  by rewrite Z.add_1_r.
Qed.

Lemma calls_backoff_events (song : Song) (max_retries : Z) (es : list exn) :
  ∀ attempt : Z,
  calls (backoff_events song max_retries attempt es) =
    replicate (length es) (call_event song).
Proof.
  induction es as [|e es IH]; intros attempt; [done|].
  simpl. unfold calls in IH. by rewrite IH.
Qed.

Lemma seqZ_split (m len k : Z) :
  0 ≤ k < len →
  seqZ m len = seqZ m k ++ (m + k) :: seqZ (Z.succ (m + k)) (Z.pred (len - k)).
Proof.
  intros Hk. transitivity (seqZ m (k + (len - k))); [f_equal; lia|].
  rewrite seqZ_app by lia. by rewrite (seqZ_cons (m + k)) by lia.
Qed.

(** C9.  With [max_retries = 0] the loop body never runs: no call is
    made, nothing is slept, and the result is the failure
    ["Max retries exceeded"]. *)
Theorem zero_retries_no_call (song : Song) (w : World) :
  scrobble_with_retry song 0 w =
    (Val (false, Some "Max retries exceeded"), [], w).
Proof. reflexivity. Qed.

(** A missing key is an exception of none of the three classes, raised
    before any call is made. *)
Lemma key_error_fails_at_once (song : Song) (max_retries attempt : Z)
    (rest : list Z) (w : World) :
  ¬ well_formed song →
  ∃ key,
    retry_loop song max_retries (attempt :: rest) w =
      (Val (false, Some ("Unexpected error: '" +:+ key +:+ "'")), [], w)
    ∧ song !! key = None.
Proof.
  intros Hwf. simpl. unfold bind at 1, try, network_scrobble, py_getitem.
  destruct (song !! "artistName") as [a|] eqn:Ha;
    [|by exists "artistName"].
  destruct (song !! "trackName") as [t|] eqn:Ht;
    [|by exists "trackName"].
  destruct Hwf. by split.
Qed.

(** C5.  An error that is not transient, whether one of the [pylast]
    classes without a retry code in its text or an exception of any
    other class, ends the operation at the call that raised it, at any
    attempt: the result is a failure and the trace of that attempt is
    the call alone, with no sleep and no further call; so the operation
    entered with [max_retries >= 1] returns after exactly one call when
    the first call raises such an error.  The message of the other
    classes is the generic ["Unexpected error: ..."]. *)
Theorem permanent_error_fails_at_once (song : Song) (max_retries : Z)
    (w : World) (e : exn) (n : Net) :
  well_formed song →
  answer song (net w) = (Some e, n) →
  transient e = false →
  (∀ attempt rest,
     retry_loop song max_retries (attempt :: rest) w =
       (Val (false, Some (failure_message e)), [call_event song], set_net n w))
  ∧ (0 < max_retries →
     scrobble_with_retry song max_retries w =
       (Val (false, Some (failure_message e)), [call_event song], set_net n w))
  ∧ (is_pylast_error (exn_cls e) = false →
     failure_message e = "Unexpected error: " +:+ exn_str e).
Proof.
  intros Hwf Hans Hperm.
  assert (∀ attempt rest,
            retry_loop song max_retries (attempt :: rest) w =
              (Val (false, Some (failure_message e)), [call_event song],
               set_net n w)) as Hstep.
  { intros attempt rest. rewrite retry_loop_step by done.
    by rewrite Hans, Hperm. }
  split; [done|]. split.
  - intros Hpos. unfold scrobble_with_retry. rewrite seqZ_cons by done.
    apply Hstep.
  - unfold failure_message. by intros ->.
Qed.

(** C1, as the code has it.  An error of one of the three [pylast]
    classes whose lower-cased text contains ['500'], ['502'], ['503'],
    ['timeout'] or ['rate limit'] is retried when attempts remain: the
    loop echoes, sleeps [min(60, 2 ** (attempt + 1))] seconds and goes on
    with the next attempt. *)
Theorem server_error_retried (song : Song) (max_retries attempt : Z)
    (rest : list Z) (w : World) (e : exn) (n : Net) :
  well_formed song →
  answer song (net w) = (Some e, n) →
  is_pylast_error (exn_cls e) = true →
  is_server_error (lower (exn_str e)) = true →
  attempt < max_retries - 1 →
  retry_loop song max_retries (attempt :: rest) w =
    match retry_loop song max_retries rest (set_net n w) with
    | (r, evs, w') =>
        (r,
         [call_event song;
          Echo (ServerErrorNotice (attempt + 1) max_retries
                  (60 `min` 2 ^ (attempt + 1)) e);
          Sleep (60 `min` 2 ^ (attempt + 1))] ++ evs,
         w')
    end.
Proof.
  intros Hwf Hans Hcls Htxt Hlt.
  rewrite retry_loop_step by done. rewrite Hans.
  unfold transient. rewrite Hcls, Htxt. simpl.
  by replace (attempt <? max_retries - 1) with true
    by (symmetry; apply Z.ltb_lt; lia).
Qed.

(** C2.  With [max_retries >= 1]: when the first [k < max_retries]
    calls raise transient errors and the next one returns, the operation
    succeeds after [k + 1] calls and [k] sleeps, of [min(60, 2 ** a)]
    seconds for [a = 1 .. k]; when all [max_retries] calls raise
    transient errors, it fails after [max_retries] calls and
    [max_retries - 1] sleeps with a message that gives the number of
    attempts and the text of the last error. *)
Theorem retry_backoff_schedule (song : Song) (max_retries : Z) (w : World)
    (es : list exn) (n : Net) :
  1 ≤ max_retries →
  well_formed song →
  Forall (λ e, transient e = true) es →
  (Z.of_nat (length es) < max_retries →
   answers song (net w) (S (length es)) = ((Some <$> es) ++ [None], n) →
   ∃ evs,
     scrobble_with_retry song max_retries w = (Val (true, None), evs, set_net n w)
     ∧ sleeps evs = (λ a, Sleep (60 `min` 2 ^ a)) <$> seqZ 1 (Z.of_nat (length es))
     ∧ calls evs = replicate (S (length es)) (call_event song))
  ∧ (Z.of_nat (length es) = max_retries →
     answers song (net w) (length es) = (Some <$> es, n) →
     ∃ evs e_last,
       last es = Some e_last
       ∧ scrobble_with_retry song max_retries w =
           (Val (false,
                 Some ("Server error after " +:+ pretty max_retries
                       +:+ " attempts: " +:+ exn_str e_last)),
            evs, set_net n w)
       ∧ sleeps evs = (λ a, Sleep (60 `min` 2 ^ a)) <$> seqZ 1 (max_retries - 1)
       ∧ calls evs = replicate (Z.to_nat max_retries) (call_event song)).
Proof.
  intros Hmr Hwf Htr. unfold scrobble_with_retry. split.
  - intros Hlt Hans. rewrite answers_snoc in Hans.
    destruct (answers song (net w) (length es)) as [rs n1] eqn:Hrs.
    destruct (answer song n1) as [r n2] eqn:Hr.
    injection Hans as Hl ->. apply app_inj_tail in Hl as [-> ->].
    rewrite (seqZ_split 0 max_retries (Z.of_nat (length es))) by lia.
    rewrite (retry_loop_transients _ _ _ _ _ _ _ Hwf Htr Hrs) by lia.
    rewrite retry_loop_step by done. simpl net. rewrite Hr.
    rewrite set_net_twice. eexists. split; [done|]. split.
    + unfold sleeps. rewrite List.filter_app.
      fold (sleeps (backoff_events song max_retries 0 es)).
      rewrite sleeps_backoff_events. simpl. by rewrite app_nil_r.
    + unfold calls. rewrite List.filter_app.
      fold (calls (backoff_events song max_retries 0 es)).
      rewrite calls_backoff_events. simpl.
      by rewrite <- replicate_cons_app.
  - intros Hlen Hans.
    destruct es as [|e0 es0] using rev_ind; [simpl in Hlen; lia|].
    clear IHes0. rewrite length_app in *. simpl in *.
    apply Forall_app in Htr as [Htr He]. rewrite Forall_singleton in He.
    replace (length es0 + 1)%nat with (S (length es0)) in * by lia.
    rewrite answers_snoc, fmap_app in Hans.
    destruct (answers song (net w) (length es0)) as [rs n1] eqn:Hrs.
    destruct (answer song n1) as [r n2] eqn:Hr.
    injection Hans as Hl ->. apply app_inj_tail in Hl as [-> ->].
    exists (backoff_events song max_retries 0 es0 ++ [call_event song]), e0.
    split; [by rewrite last_snoc|].
    rewrite (seqZ_split 0 max_retries (Z.of_nat (length es0))) by lia.
    replace (Z.pred (max_retries - Z.of_nat (length es0))) with 0 by lia.
    change (seqZ _ 0) with (@nil Z).
    rewrite (retry_loop_transients _ _ _ _ _ _ _ Hwf Htr Hrs) by lia.
    rewrite retry_loop_step by done. simpl net. rewrite Hr, He.
    replace (0 + Z.of_nat (length es0) <? max_retries - 1) with false
      by (symmetry; apply Z.ltb_ge; lia).
    rewrite set_net_twice. split; [done|]. split.
    + unfold sleeps. rewrite List.filter_app.
      fold (sleeps (backoff_events song max_retries 0 es0)).
      rewrite sleeps_backoff_events. simpl. rewrite app_nil_r.
      do 2 f_equal. lia.
    + unfold calls. rewrite List.filter_app.
      fold (calls (backoff_events song max_retries 0 es0)).
      rewrite calls_backoff_events. simpl.
      rewrite <- Hlen, Nat2Z.id. by rewrite <- replicate_cons_app.
Qed.

(** * The batch loop *)

Lemma bind_val_inv {A B} (m : M A) (f : A → M B) (w w' : World)
    (b : B) (evs : list event) :
  bind m f w = (Val b, evs, w') →
  ∃ a evs1 w1 evs2,
    m w = (Val a, evs1, w1) ∧ f a w1 = (Val b, evs2, w') ∧ evs = evs1 ++ evs2.
Proof.
  unfold bind. destruct (m w) as [[[a|e] evs1] w1]; [|done].
  destruct (f a w1) as [[r evs2] w2] eqn:Hf. intros [= -> <- ->].
  by exists a, evs1, w1, evs2.
Qed.

Lemma bind_val {A B} (m : M A) (f : A → M B) (w w1 : World)
    (a : A) (evs1 : list event) :
  m w = (Val a, evs1, w1) →
  bind m f w = match f a w1 with (r, evs2, w2) => (r, evs1 ++ evs2, w2) end.
Proof. unfold bind. by intros ->. Qed.

(** What an iteration does after [scrobble_with_retry], when the item
    succeeded or has the two keys the error notice reads: it ends in
    [break], or goes through the inter-item sleep, or ends with the
    exception that sleep raised. *)
Lemma after_attempt_cases (start_index : Z) (delay : Q) (songs : list Song)
    (i : Z) (song : Song) (res : bool * option string) (st : BatchState)
    (w : World) :
  res.1 = true ∨ well_formed song →
  after_attempt start_index delay (Z.of_nat (length songs)) i song res st w =
    if consecutive_errors (next_state song res st) >? 10 then
      (Val (next_state song res st, true),
       item_events start_index delay songs i song res (next_state song res st),
       w)
    else
      match jitter_sleep delay i with
      | None =>
          (Val (next_state song res st, false),
           item_events start_index delay songs i song res
             (next_state song res st),
           w)
      | Some e =>
          (Exc e,
           (if res.1 then
              progress_events start_index songs i (next_state song res st)
            else
              item_error_event songs i song res.2
              :: penalty_events (consecutive_errors (next_state song res st))),
           w)
      end.
Proof.
  destruct res as [[|] msg]; intros Hok;
    unfold after_attempt, next_state, item_events, sleep_jitter; simpl.
  - unfold progress_events, cooldown_events. simpl.
    unfold bind, echo, emit, ret, raise.
    destruct (_ `mod` 100 =? 0); destruct (jitter_sleep delay i);
      simpl; try done; by destruct (_ `mod` 500 =? 0).
  - destruct Hok as [?|[[a Ha] [t Ht]]]; [done|].
    unfold item_error_event, penalty_events, cooldown_events, py_getitem.
    rewrite Ha, Ht. simpl. unfold bind, echo, sleep, emit, ret, raise.
    destruct (consecutive_errors st + 1 >? 3); simpl;
      (destruct (consecutive_errors st + 1 >? 10); simpl; [done|]);
      (destruct (jitter_sleep delay i); simpl; [done|]);
      by destruct (_ `mod` 500 =? 0).
Qed.

Lemma after_attempt_ok (start_index : Z) (delay : Q) (songs : list Song)
    (i : Z) (song : Song) (res : bool * option string) (st : BatchState)
    (w : World) :
  res.1 = true ∨ well_formed song →
  jitter_sleep delay i = None →
  after_attempt start_index delay (Z.of_nat (length songs)) i song res st w =
    (Val (next_state song res st,
          consecutive_errors (next_state song res st) >? 10),
     item_events start_index delay songs i song res (next_state song res st),
     w).
Proof.
  intros Hok Hs. rewrite after_attempt_cases by done. rewrite Hs.
  by destruct (consecutive_errors _ >? 10).
Qed.

(** Without one of the two keys, the error notice raises [KeyError]. *)
Lemma after_attempt_key_error (start_index : Z) (delay : Q) (n_songs i : Z)
    (song : Song) (msg : option string) (st : BatchState) (w : World) :
  ¬ well_formed song →
  ∃ e, after_attempt start_index delay n_songs i song (false, msg) st w =
         (Exc e, [], w) ∧ exn_cls e = KeyError.
Proof.
  intros Hwf. unfold after_attempt, py_getitem.
  destruct (song !! "artistName") as [a|] eqn:Ha.
  - destruct (song !! "trackName") as [t|] eqn:Ht.
    + destruct Hwf. by split.
    + by eexists.
  - by eexists.
Qed.

(** An iteration that completes leaves [next_state] and the world as
    [scrobble_with_retry] left it. *)
Lemma after_attempt_val_inv (start_index : Z) (delay : Q) (songs : list Song)
    (i : Z) (song : Song) (res : bool * option string) (st st' : BatchState)
    (stop : bool) (evs : list event) (w w' : World) :
  after_attempt start_index delay (Z.of_nat (length songs)) i song res st w =
    (Val (st', stop), evs, w') →
  (res.1 = true ∨ well_formed song)
  ∧ st' = next_state song res st
  ∧ stop = (consecutive_errors st' >? 10)
  ∧ evs = item_events start_index delay songs i song res st'
  ∧ w' = w.
Proof.
  intros H.
  assert (Hok : res.1 = true ∨ well_formed song).
  { destruct res as [[|] msg]; [by left|right].
    destruct (decide (is_Some (song !! "artistName")
                      ∧ is_Some (song !! "trackName"))) as [Hwf|Hwf]; [done|].
    destruct (after_attempt_key_error start_index delay
                (Z.of_nat (length songs)) i song msg st w Hwf) as (e & He & _).
    congruence. }
  rewrite after_attempt_cases in H by done.
  destruct (consecutive_errors _ >? 10) eqn:Hc.
  - injection H as <- <- <- <-. by rewrite Hc.
  - destruct (jitter_sleep delay i); [done|].
    injection H as <- <- <- <-. by rewrite Hc.
Qed.

(** [scrobble_with_retry] always returns, and touches nothing but the
    service. *)
Lemma network_scrobble_frame (song : Song) (w : World) :
  ∃ r evs n, network_scrobble song w = (r, evs, set_net n w).
Proof.
  destruct (decide (is_Some (song !! "artistName")
                    ∧ is_Some (song !! "trackName"))) as [Hwf|Hwf].
  - rewrite network_scrobble_wf by done. eauto.
  - exists (Exc (Exn KeyError
              (if song !! "artistName" is Some _ then "'trackName'"
               else "'artistName'"))),
      [], (net w).
    rewrite set_net_net. unfold network_scrobble, py_getitem.
    destruct (song !! "artistName") as [a|]; [|done].
    destruct (song !! "trackName") as [t|]; [|done].
    destruct Hwf. by split.
Qed.

Lemma retry_loop_total (song : Song) (max_retries : Z) (attempts : list Z) :
  ∀ w, ∃ res evs n,
    retry_loop song max_retries attempts w = (Val res, evs, set_net n w).
Proof.
  induction attempts as [|attempt rest IH]; intros w.
  - exists (false, Some "Max retries exceeded"), [], (net w).
    by rewrite set_net_net.
  - simpl. unfold bind at 1, try.
    destruct (network_scrobble_frame song w) as (r & evs & n & ->).
    destruct r as [[]|e]; simpl; [by eauto|].
    destruct (is_pylast_error (exn_cls e)); [|by eauto].
    destruct (is_server_error (lower (exn_str e))); [|by eauto].
    destruct (attempt <? max_retries - 1); [|by eauto].
    unfold bind, echo, sleep, emit. simpl.
    destruct (IH (set_net n w)) as (res & evs' & n' & ->).
    rewrite set_net_twice. eauto.
Qed.

(** The result is [(True, None)] or [(False, <a string>)]. *)
Lemma retry_loop_result (song : Song) (max_retries : Z) (attempts : list Z) :
  ∀ w res evs w',
    retry_loop song max_retries attempts w = (Val res, evs, w') →
    res = (true, None) ∨ ∃ s, res = (false, Some s).
Proof.
  induction attempts as [|attempt rest IH]; intros w res evs w' H.
  - injection H as <- _ _. eauto.
  - simpl in H.
    apply bind_val_inv in H as (r & evs1 & w1 & evs2 & _ & H & _).
    destruct r as [[]|e]; [injection H as <- _ _; by left|].
    destruct (is_pylast_error (exn_cls e)); [|injection H as <- _ _; eauto].
    destruct (is_server_error (lower (exn_str e)));
      [|injection H as <- _ _; eauto].
    destruct (attempt <? max_retries - 1); [|injection H as <- _ _; eauto].
    apply bind_val_inv in H as (? & ? & ? & ? & _ & H & _).
    apply bind_val_inv in H as (? & ? & ? & ? & _ & H & _).
    by eapply IH.
Qed.

Lemma loop_body_ok (start_index : Z) (delay : Q) (songs : list Song) (i : Z)
    (song : Song) (st : BatchState) (w w1 : World)
    (res : bool * option string) (evs1 : list event) :
  scrobble_with_retry song 5 w = (Val res, evs1, w1) →
  res.1 = true ∨ well_formed song →
  jitter_sleep delay i = None →
  loop_body start_index delay (Z.of_nat (length songs)) i song st w =
    (Val (next_state song res st,
          consecutive_errors (next_state song res st) >? 10),
     evs1 ++ item_events start_index delay songs i song res
               (next_state song res st),
     w1).
Proof.
  intros Hres Hok Hs. unfold loop_body. rewrite (bind_val _ _ _ _ _ _ Hres).
  by rewrite after_attempt_ok.
Qed.

(** Over well-formed items, with a delay the inter-item sleep accepts,
    the loop runs to its end or to [break]. *)
Lemma main_loop_total (start_index : Z) (delay : Q) (songs todo : list Song) :
  sleep_accepts delay →
  Forall well_formed todo →
  ∀ i st w, ∃ st' evs n,
    main_loop start_index delay (Z.of_nat (length songs)) i todo st w =
      (Val st', evs, set_net n w).
Proof.
  intros Hsleep. induction 1 as [|song todo Hwf _ IH]; intros i st w.
  - exists st, [], (net w). by rewrite set_net_net.
  - destruct (retry_loop_total song 5 (seqZ 0 5) w) as (res & evs1 & n & Hres).
    simpl. unfold bind at 1.
    rewrite (loop_body_ok _ _ _ _ _ _ _ _ _ _ Hres)
      by first [by right | apply Hsleep].
    destruct (consecutive_errors _ >? 10).
    + unfold ret. eauto.
    + destruct (IH (i + 1) (next_state song res st) (set_net n w))
        as (st' & evs & n' & ->).
      rewrite set_net_twice. eauto.
Qed.

(** What holds at every point of a run. *)
Lemma reach_invariant (start_index : Z) (delay : Q) (songs : list Song)
    (w0 : World) hist todo st stop w :
  reach start_index delay songs w0 hist todo st stop w →
  (fst <$> hist) ++ todo = songs
  ∧ success_count st = Z.of_nat (length (List.filter (λ p, p.2.1) hist))
  ∧ error_count st = Z.of_nat (length (List.filter (λ p, negb p.2.1) hist))
  ∧ failed_songs st = failures hist
  ∧ Forall (λ p, p.2 = (true, None) ∨ ∃ s, p.2 = (false, Some s)) hist
  ∧ stop = (consecutive_errors st >? 10)
  ∧ ∃ n, w = set_net n w0.
Proof.
  induction 1 as [|hist song todo st w res evs1 w1 st' stop evs2 w2 _ IH Hres Hafter].
  - repeat split; try done. exists (net w0). by rewrite set_net_net.
  - destruct IH as (Hsongs & Hsucc & Herr & Hfail & Hshape & _ & n & ->).
    apply after_attempt_val_inv in Hafter as (_ & -> & -> & _ & ->).
    pose proof (retry_loop_result _ _ _ _ _ _ _ Hres) as Hr.
    destruct (retry_loop_total song 5 (seqZ 0 5) (set_net n w0))
      as (res' & evs' & n' & Hres').
    unfold scrobble_with_retry in Hres. rewrite Hres' in Hres.
    injection Hres as -> -> <-.
    unfold failures in *. rewrite fmap_app, !List.filter_app, !length_app.
    rewrite <- (assoc_L (++)). split; [done|].
    assert (Forall (λ p : Song * (bool * option string),
              p.2 = (true, None) ∨ ∃ s, p.2 = (false, Some s))
              (hist ++ [(song, res)])) as Hshape'
      by (apply Forall_app; split; [done|by apply Forall_singleton]).
    unfold next_state. destruct res as [[|] msg]; simpl.
    + rewrite app_nil_r. repeat split; try done; [lia..|]. by eauto.
    + rewrite fmap_app, <- Hfail. simpl.
      repeat split; try done; [lia..|]. by eauto.
Qed.

Lemma filter_split_length {A} (f : A → bool) (l : list A) :
  (length (List.filter f l) + length (List.filter (λ x, negb (f x)) l))%nat
  = length l.
Proof.
  induction l as [|x l IH]; [done|]. simpl. destruct (f x); simpl; lia.
Qed.

(** The loop of the program goes from point to point. *)
Lemma main_loop_reach (start_index : Z) (delay : Q) (songs : list Song)
    (w0 : World) (todo : list Song) :
  ∀ hist st w st' evs w',
    reach start_index delay songs w0 hist todo st false w →
    main_loop start_index delay (Z.of_nat (length songs))
      (Z.of_nat (length hist)) todo st w = (Val st', evs, w') →
    ∃ hist' todo' stop,
      reach start_index delay songs w0 hist' todo' st' stop w'
      ∧ (stop = true ∨ todo' = []).
Proof.
  induction todo as [|song todo IH]; intros hist st w st' evs w' Hreach Hrun.
  - injection Hrun as <- _ <-. exists hist, [], false. by split; [|right].
  - simpl in Hrun.
    apply bind_val_inv in Hrun as ([st1 stop] & evs1 & w1 & evs2 & Hbody & Hrest & _).
    apply bind_val_inv in Hbody as (res & evs3 & w3 & evs4 & Hres & Hafter & _).
    assert (reach start_index delay songs w0 (hist ++ [(song, res)]) todo
              st1 stop w1) as Hnext by (by eapply reach_item).
    destruct stop.
    + injection Hrest as <- _ <-. eexists _, _, true. by split; [|left].
    + apply (IH (hist ++ [(song, res)]) st1 w1 st' evs2 w'); [done|].
      rewrite length_app, Nat2Z.inj_add. done.
Qed.

(** The flush of the logs. *)
Lemma write_results_spec (file_name : string) (songs : list Song)
    (st : BatchState) (w : World) :
  write_results file_name (Z.of_nat (length songs)) st w =
    (Val tt, flush_events songs file_name st,
     mkWorld (net w)
       (scrobbled_files w +:+ basename file_name +:+ newline)
       (match failed_songs st with
        | [] => failed_songs_json w
        | _ :: _ => Some (default [] (failed_songs_json w) ++ failed_songs st)
        end)).
Proof.
  unfold write_results, flush_events, record_failures, write_scrobbled_file,
    append_json, bind, echo, emit, ret.
  destruct (failed_songs st) as [|s l]; simpl; [done|].
  by destruct (failed_songs_json w).
Qed.

Lemma main_val_inv (file_name : string) (file_songs : list Song)
    (start_index : Z) (delay : Q) (w w' : World) (st : BatchState)
    (evs : list event) :
  main file_name file_songs start_index delay w = (Val st, evs, w') →
  ∃ evs1 w1,
    main_loop start_index delay
      (Z.of_nat (length (slice_from file_songs start_index))) 0
      (slice_from file_songs start_index) initial_state w = (Val st, evs1, w1)
    ∧ evs = evs1 ++ flush_events (slice_from file_songs start_index) file_name st
    ∧ w' = mkWorld (net w1)
             (scrobbled_files w1 +:+ basename file_name +:+ newline)
             (match failed_songs st with
              | [] => failed_songs_json w1
              | _ :: _ =>
                  Some (default [] (failed_songs_json w1) ++ failed_songs st)
              end).
Proof.
  unfold main. intros H.
  apply bind_val_inv in H as (st1 & evs1 & w1 & evs2 & Hloop & Hflush & ->).
  rewrite (bind_val _ _ _ _ _ _ (write_results_spec _ _ _ _)) in Hflush.
  unfold ret in Hflush. injection Hflush as -> <- <-.
  exists evs1, w1. by rewrite app_nil_r.
Qed.

Lemma main_reach (file_name : string) (file_songs : list Song)
    (start_index : Z) (delay : Q) (w0 w' : World) (st : BatchState)
    (evs : list event) :
  main file_name file_songs start_index delay w0 = (Val st, evs, w') →
  ∃ hist todo stop w1,
    reach start_index delay (slice_from file_songs start_index) w0
      hist todo st stop w1
    ∧ (stop = true ∨ todo = []).
Proof.
  intros H. apply main_val_inv in H as (evs1 & w1 & Hloop & _ & _).
  destruct (main_loop_reach start_index delay _ w0 _ [] _ _ _ _ _
              (reach_start _ _ _ _) Hloop) as (hist & todo & stop & Hr & Hend).
  by exists hist, todo, stop, w1.
Qed.

(** C4.  At every point of a run the items processed so far and the
    items not reached yet make up the batch, [success_count] is the
    number of processed items that succeeded and [error_count] the
    number of those that failed, so the two add up to the number of
    processed items; and the state [main] ends with is such a point,
    reached by [break] or with no item left. *)
Theorem counters_sum_to_processed (file_name : string)
    (file_songs : list Song) (start_index : Z) (delay : Q) (w0 : World) :
  (∀ hist todo st stop w,
     reach start_index delay (slice_from file_songs start_index) w0
       hist todo st stop w →
     (fst <$> hist) ++ todo = slice_from file_songs start_index
     ∧ success_count st = Z.of_nat (length (List.filter (λ p, p.2.1) hist))
     ∧ error_count st = Z.of_nat (length (List.filter (λ p, negb p.2.1) hist))
     ∧ success_count st + error_count st = Z.of_nat (length hist))
  ∧ (∀ st evs w',
       main file_name file_songs start_index delay w0 = (Val st, evs, w') →
       ∃ hist todo stop w1,
         reach start_index delay (slice_from file_songs start_index) w0
           hist todo st stop w1
         ∧ (stop = true ∨ todo = [])).
Proof.
  split.
  - intros hist todo st stop w Hr.
    apply reach_invariant in Hr as (Hsongs & Hsucc & Herr & _).
    repeat split; try done. rewrite Hsucc, Herr, <- Nat2Z.inj_add.
    by rewrite filter_split_length.
  - intros st evs w'. apply main_reach.
Qed.

Lemma with_error_lookup (song : Song) (error_msg : option string) (k : string) :
  with_error song error_msg !! k =
    if decide (k = "error") then Some (error_json error_msg) else song !! k.
Proof.
  unfold with_error. rewrite lookup_insert.
  destruct (decide ("error" = k)), (decide (k = "error")); congruence.
Qed.

(** C10.  At every point of a run [error_count] is the length of
    [failed_songs], and [failed_songs] has, in the order of the batch,
    one entry for each processed item that failed: the item with the
    key ['error'] set to the message [scrobble_with_retry] returned,
    which is a string, and every other key as in the item. *)
Theorem failed_songs_mirror_errors (file_name : string)
    (file_songs : list Song) (start_index : Z) (delay : Q) (w0 : World) :
  (∀ hist todo st stop w,
     reach start_index delay (slice_from file_songs start_index) w0
       hist todo st stop w →
     error_count st = Z.of_nat (length (failed_songs st))
     ∧ failed_songs st =
         (λ p, with_error p.1 p.2.2) <$> List.filter (λ p, negb p.2.1) hist
     ∧ Forall (λ p, p.2.1 = false → ∃ s, p.2.2 = Some s) hist)
  ∧ (∀ song s k,
       with_error song (Some s) !! k =
         if decide (k = "error") then Some (JStr s) else song !! k)
  ∧ (∀ st evs w',
       main file_name file_songs start_index delay w0 = (Val st, evs, w') →
       ∃ hist todo stop w1,
         reach start_index delay (slice_from file_songs start_index) w0
           hist todo st stop w1
         ∧ (stop = true ∨ todo = [])).
Proof.
  split; [|split].
  - intros hist todo st stop w Hr.
    apply reach_invariant in Hr as (_ & _ & Herr & Hfail & Hshape & _).
    split; [|split; [done|]].
    + rewrite Herr, Hfail. unfold failures. by rewrite length_fmap.
    + eapply Forall_impl; [exact Hshape|].
      intros [song [ok msg]] [[= -> ->]|[s [= -> ->]]]; simpl; [done|by eauto].
  - intros song s k. apply with_error_lookup.
  - intros st evs w'. apply main_reach.
Qed.

(** C7.  Whatever the consecutive-error counter was, an item that
    succeeds leaves it at 0; when the next item fails, the counter is
    1, the iteration emits its error notice and the inter-item delay
    (and the cooldown every 500 items) with no penalty sleep, and the
    loop does not [break].  The inter-item sleep of the two iterations
    is one that returns: [time.sleep] accepts the delay. *)
Theorem success_resets_consecutive (start_index : Z) (delay : Q)
    (songs : list Song) (i : Z) (song1 song2 : Song) (st : BatchState)
    (w w1 w2 : World) (msg1 msg2 : option string) (evs1 evs2 : list event) :
  jitter_sleep delay i = None →
  jitter_sleep delay (i + 1) = None →
  scrobble_with_retry song1 5 w = (Val (true, msg1), evs1, w1) →
  scrobble_with_retry song2 5 w1 = (Val (false, msg2), evs2, w2) →
  well_formed song2 →
  ∃ st1 st2,
    loop_body start_index delay (Z.of_nat (length songs)) i song1 st w =
      (Val (st1, false),
       evs1 ++ progress_events start_index songs i st1
            ++ SleepJitter delay :: cooldown_events (i + 1),
       w1)
    ∧ consecutive_errors st1 = 0
    ∧ loop_body start_index delay (Z.of_nat (length songs)) (i + 1) song2 st1 w1 =
        (Val (st2, false),
         evs2 ++ item_error_event songs (i + 1) song2 msg2
              :: SleepJitter delay :: cooldown_events (i + 1 + 1),
         w2)
    ∧ consecutive_errors st2 = 1.
Proof.
  intros Hs1 Hs2 H1 H2 Hwf.
  exists (next_state song1 (true, msg1) st),
         (next_state song2 (false, msg2) (next_state song1 (true, msg1) st)).
  rewrite (loop_body_ok _ _ _ _ _ _ _ _ _ _ H1) by first [by left | done].
  rewrite (loop_body_ok _ _ _ _ _ _ _ _ _ _ H2) by first [by right | done].
  done.
Qed.


(** C6.  [recordFailures] is [if failed_songs: append_json(...)].  On a
    non-empty list and no artifact it creates the artifact with the
    given events in order; two calls with two non-empty lists leave the
    first list followed by the second; and on an existing artifact the
    old entries stay in place with the new ones after them. *)
Theorem record_failures_appends (n : Net) (log : string) (a b : Song)
    (la lb : list Song) :
  record_failures (a :: la) (mkWorld n log None) =
    (Val tt, [Echo (WroteNotice (Z.of_nat (length (a :: la))))],
     mkWorld n log (Some (a :: la)))
  ∧ (record_failures (a :: la) >> record_failures (b :: lb))
      (mkWorld n log None) =
      (Val tt,
       [Echo (WroteNotice (Z.of_nat (length (a :: la))));
        Echo (WroteNotice (Z.of_nat (length (b :: lb))))],
       mkWorld n log (Some ((a :: la) ++ (b :: lb))))
  ∧ (∀ old new, ∃ evs,
       record_failures new (mkWorld n log (Some old)) =
         (Val tt, evs, mkWorld n log (Some (old ++ new)))).
Proof.
  split; [done|split; [done|]].
  intros old [|s new]; eexists.
  - unfold record_failures, ret. by rewrite app_nil_r.
  - done.
Qed.

Lemma scrobble_with_retry_not_transient (song : Song) (max_retries : Z)
    (w : World) (e : exn) (n : Net) :
  0 < max_retries →
  well_formed song →
  answer song (net w) = (Some e, n) →
  transient e = false →
  scrobble_with_retry song max_retries w =
    (Val (false, Some (failure_message e)), [call_event song], set_net n w).
Proof.
  intros Hpos Hwf Hans Hperm.
  unfold scrobble_with_retry. rewrite seqZ_cons by done.
  rewrite retry_loop_step by done. by rewrite Hans, Hperm.
Qed.

Lemma calls_item_events (start_index : Z) (delay : Q) (songs : list Song)
    (i : Z) (song : Song) (res : bool * option string) (st : BatchState) :
  calls (item_events start_index delay songs i song res st) = [].
Proof.
  unfold item_events, progress_events, penalty_events, cooldown_events, calls.
  rewrite List.filter_app. by repeat case_match.
Qed.

(** When no call ever succeeds or raises a transient error, and the
    inter-item sleep accepts the delay, the loop breaks at the item that
    brings the consecutive errors to 11. *)
Lemma all_fail_halts (start_index : Z) (delay : Q) (songs : list Song)
    (m : nat) :
  (∀ n a t ts al, ∃ e n',
     remote_scrobble n a t ts al = (Some e, n') ∧ transient e = false) →
  sleep_accepts delay →
  ∀ i todo st w,
    consecutive_errors st = 10 - Z.of_nat m →
    Forall well_formed todo →
    (m < length todo)%nat →
    ∃ st' evs n pre msg song_last,
      main_loop start_index delay (Z.of_nat (length songs)) i todo st w =
        (Val st', evs, set_net n w)
      ∧ error_count st' = error_count st + Z.of_nat (S m)
      ∧ success_count st' = success_count st
      ∧ calls evs = call_event <$> take (S m) todo
      ∧ todo !! m = Some song_last
      ∧ evs = pre ++ [item_error_event songs (i + Z.of_nat m) song_last msg;
                      Echo (PenaltyNotice 60); Sleep 60; Echo HaltNotice].
Proof.
  intros Hfail Hsleep.
  induction m as [|m IH]; intros i todo st w Hc Hwf Hlen;
    (destruct Hwf as [|song todo Hsong Hwf]; [simpl in Hlen; lia|]);
    destruct (Hfail (net w) (default JNull (song !! "artistName"))
                (default JNull (song !! "trackName"))
                (py_get song "timestamp" (JInt 1767253534))
                (py_get song "albumName" (JStr EmptyString)))
      as (e & n & Hans & Hperm);
    pose proof (scrobble_with_retry_not_transient song 5 w e n
                  eq_refl Hsong Hans Hperm) as Hres;
    simpl main_loop; unfold bind at 1;
    rewrite (loop_body_ok _ _ _ _ _ _ _ _ _ _ Hres)
      by first [by right | apply Hsleep];
    unfold next_state; cbn [fst snd consecutive_errors]; rewrite Hc.
  - change (10 - Z.of_nat 0 + 1 >? 10) with true. cbn iota.
    exists (mkBatch (success_count st) (error_count st + 1)
              (failed_songs st ++ [with_error song (Some (failure_message e))])
              (10 - Z.of_nat 0 + 1)),
      ([call_event song]
       ++ item_events start_index delay songs i song
            (false, Some (failure_message e))
            (mkBatch (success_count st) (error_count st + 1)
               (failed_songs st ++ [with_error song (Some (failure_message e))])
               (10 - Z.of_nat 0 + 1)) ++ []),
      n, [call_event song], (Some (failure_message e)), song.
    split; [done|]. split; [done|]. split; [done|].
    split; [|split; [done|]].
    + rewrite app_nil_r. unfold calls. rewrite List.filter_app.
      fold (calls (item_events start_index delay songs i song
                     (false, Some (failure_message e))
                     (mkBatch (success_count st) (error_count st + 1)
                        (failed_songs st
                         ++ [with_error song (Some (failure_message e))])
                        (10 - Z.of_nat 0 + 1)))).
      by rewrite calls_item_events.
    + rewrite app_nil_r, Z.add_0_r. done.
  - replace (10 - Z.of_nat (S m) + 1 >? 10) with false
      by (symmetry; rewrite Z.gtb_ltb; apply Z.ltb_ge; lia).
    cbn iota.
    set (st1 := mkBatch (success_count st) (error_count st + 1)
                  (failed_songs st
                   ++ [with_error song (Some (failure_message e))])
                  (10 - Z.of_nat (S m) + 1)).
    destruct (IH (i + 1) todo st1 (set_net n w))
      as (st' & evs & n' & pre & msg & song_last
          & -> & Herr & Hsucc & Hcalls & Hlast & ->);
      [simpl; lia|done|simpl in Hlen; lia|].
    rewrite set_net_twice.
    exists st',
      (([call_event song]
        ++ item_events start_index delay songs i song
             (false, Some (failure_message e)) st1)
       ++ pre ++ [item_error_event songs (i + 1 + Z.of_nat m) song_last msg;
                  Echo (PenaltyNotice 60); Sleep 60; Echo HaltNotice]),
      n',
      (([call_event song]
        ++ item_events start_index delay songs i song
             (false, Some (failure_message e)) st1) ++ pre),
      msg, song_last.
    split; [done|]. split; [simpl in Herr; lia|]. split; [done|].
    split; [|split; [done|]].
    + unfold calls in *. rewrite !List.filter_app in *.
      fold (calls (item_events start_index delay songs i song
                     (false, Some (failure_message e)) st1)).
      rewrite calls_item_events.
      change (take (S (S m)) (song :: todo)) with (song :: take (S m) todo).
      by rewrite fmap_cons, <- Hcalls.
    + replace (i + Z.of_nat (S m)) with (i + 1 + Z.of_nat m) by lia.
      apply (assoc_L (++)).
Qed.

(** C3.  In a batch of 20 items whose calls all raise errors that are
    not retried, with a delay the inter-item sleep accepts, the loop
    breaks at the 11th item: the calls made are those of the first 11
    items, one each, [error_count] is 11, and after the error notice of
    the 11th item come the penalty sleep of 60 seconds and the halt
    notice, then the notices of the log flush, with no inter-item delay
    and no cooldown. *)
Theorem halts_after_eleven_failures (file_name : string)
    (file_songs : list Song) (start_index : Z) (delay : Q) (w : World) :
  length (slice_from file_songs start_index) = 20%nat →
  Forall well_formed (slice_from file_songs start_index) →
  (∀ n a t ts al, ∃ e n',
     remote_scrobble n a t ts al = (Some e, n') ∧ transient e = false) →
  sleep_accepts delay →
  ∃ st evs w' pre msg song11,
    main file_name file_songs start_index delay w = (Val st, evs, w')
    ∧ error_count st = 11
    ∧ success_count st = 0
    ∧ length (failed_songs st) = 11%nat
    ∧ calls evs = call_event <$> take 11 (slice_from file_songs start_index)
    ∧ slice_from file_songs start_index !! 10%nat = Some song11
    ∧ evs = pre
            ++ [item_error_event (slice_from file_songs start_index) 10
                  song11 msg;
                Echo (PenaltyNotice 60); Sleep 60; Echo HaltNotice]
            ++ flush_events (slice_from file_songs start_index) file_name st.
Proof.
  intros Hlen Hwf Hfail Hsleep.
  destruct (all_fail_halts start_index delay
              (slice_from file_songs start_index) 10 Hfail Hsleep 0
              (slice_from file_songs start_index) initial_state w)
    as (st & evs & n & pre & msg & song11
        & Hloop & Herr & Hsucc & Hcalls & Hlast & Hevs);
    [done|done|lia|].
  change (0 + Z.of_nat 10) with 10 in Hevs. subst evs.
  exists st. eexists. eexists. exists pre, msg, song11. split.
  { unfold main. rewrite (bind_val _ _ _ _ _ _ Hloop).
    rewrite (bind_val _ _ _ _ _ _ (write_results_spec _ _ _ _)).
    unfold ret. reflexivity. }
  destruct (main_loop_reach start_index delay _ w _ [] _ _ _ _ _
              (reach_start _ _ _ _) Hloop) as (hist & todo & stop & Hr & _).
  apply reach_invariant in Hr as (_ & _ & Herr' & Hfailed & _).
  split; [done|]. split; [done|]. split.
  { rewrite Hfailed. unfold failures. rewrite length_fmap.
    simpl in Herr. lia. }
  split; [|split; [done|]].
  - rewrite app_nil_r.
    unfold calls in *. rewrite List.filter_app, Hcalls.
    unfold flush_events. simpl.
    destruct (failed_songs st); simpl; by rewrite app_nil_r.
  - by rewrite app_nil_r, <- (assoc_L (++)).
Qed.

(** * Further properties: the test on the error text *)

Lemma string_app_cons (c : ascii) (s t : string) :
  String c s +:+ t = String c (s +:+ t).
Proof. reflexivity. Qed.

Lemma string_app_nil (t : string) : EmptyString +:+ t = t.
Proof. reflexivity. Qed.

Lemma string_prefix_spec (p s : string) :
  String.prefix p s = true ↔ ∃ t, s = p +:+ t.
Proof.
  revert s. induction p as [|c p IH]; intros s.
  - destruct s; simpl; split; eauto.
  - destruct s as [|c' s]; simpl; [split; [done|by intros [t ?]]|].
    setoid_rewrite string_app_cons.
    destruct (Ascii.ascii_dec c c') as [->|Hne].
    + rewrite IH. split; intros [t Ht]; exists t; congruence.
    + split; [done|]. intros [t Ht]. congruence.
Qed.

(** [needle in hay] holds exactly when [hay] is some text, [needle],
    some text. *)
Lemma py_in_spec (needle hay : string) :
  py_in needle hay = true ↔ ∃ pre post, hay = pre +:+ needle +:+ post.
Proof.
  induction hay as [|c hay IH].
  - change (py_in needle EmptyString)
      with (String.prefix needle EmptyString || false).
    rewrite orb_true_iff, string_prefix_spec. split.
    + intros [[t Ht]|?]; [|done]. by exists EmptyString, t.
    + intros ([|c pre] & post & H); [|done]. left. by exists post.
  - change (py_in needle (String c hay))
      with (String.prefix needle (String c hay) || py_in needle hay).
    rewrite orb_true_iff, string_prefix_spec, IH. split.
    + intros [[t Ht]|(pre & post & ->)].
      * by exists EmptyString, t.
      * by exists (String c pre), post.
    + intros ([|c' pre] & post & H).
      * left. by exists post.
      * right. rewrite string_app_cons in H. injection H as -> ->.
        by exists pre, post.
Qed.

Lemma lower_app (s t : string) : lower (s +:+ t) = lower s +:+ lower t.
Proof.
  induction s as [|c s IH]; [done|].
  rewrite string_app_cons. simpl. by rewrite IH.
Qed.

Lemma is_server_error_spec (error_str : string) :
  is_server_error error_str = true ↔
  ∃ code pre post, code ∈ retry_codes ∧ error_str = pre +:+ code +:+ post.
Proof.
  unfold is_server_error. rewrite existsb_exists. split.
  - intros (code & Hin & Hcode). apply py_in_spec in Hcode as (pre & post & ->).
    exists code, pre, post. by rewrite list_elem_of_In.
  - intros (code & pre & post & Hin & ->). exists code.
    rewrite <- list_elem_of_In, py_in_spec. eauto.
Qed.

Lemma transient_spec (e : exn) :
  transient e = true ↔
  is_pylast_error (exn_cls e) = true
  ∧ ∃ code pre post,
      code ∈ retry_codes ∧ lower (exn_str e) = pre +:+ code +:+ post.
Proof. unfold transient. by rewrite andb_true_iff, is_server_error_spec. Qed.

(** X1.  With attempts remaining, the attempt whose call raised [e] is
    followed by the backoff sleep and the attempts that are left
    exactly when [e] is of one of the three [pylast] classes and its
    lower-cased text has ['502'], ['500'], ['503'], ['timeout'] or
    ['rate limit'] somewhere in it, whatever comes before and after. *)
Theorem retried_iff_code_in_text (song : Song) (max_retries attempt : Z)
    (rest : list Z) (w : World) (e : exn) (n : Net) :
  well_formed song →
  answer song (net w) = (Some e, n) →
  attempt < max_retries - 1 →
  (is_pylast_error (exn_cls e) = true
   ∧ ∃ code pre post,
       code ∈ retry_codes ∧ lower (exn_str e) = pre +:+ code +:+ post)
  ↔ retry_loop song max_retries (attempt :: rest) w =
      match retry_loop song max_retries rest (set_net n w) with
      | (r, evs, w') =>
          (r,
           [call_event song;
            Echo (ServerErrorNotice (attempt + 1) max_retries
                    (60 `min` 2 ^ (attempt + 1)) e);
            Sleep (60 `min` 2 ^ (attempt + 1))] ++ evs,
           w')
      end.
Proof.
  intros Hwf Hans Hlt. rewrite <- transient_spec.
  rewrite retry_loop_step by done. rewrite Hans.
  replace (attempt <? max_retries - 1) with true
    by (symmetry; apply Z.ltb_lt; lia).
  destruct (transient e); split; try done.
  destruct (retry_loop song max_retries rest (set_net n w)) as [[r evs] w'].
  by intros [=].
Qed.

(** X2.  The test does not look at the case of the text: an error of
    the three classes whose text has, anywhere, a word that lower-cases
    to one of the five codes is retried. *)
Theorem transient_any_case (cls : exn_class) (pre mid post : string) :
  is_pylast_error cls = true →
  lower mid ∈ retry_codes →
  transient (Exn cls (pre +:+ mid +:+ post)) = true.
Proof.
  intros Hcls Hmid. unfold transient. simpl. rewrite Hcls. simpl.
  apply is_server_error_spec.
  exists (lower mid), (lower pre), (lower post).
  by rewrite !lower_app.
Qed.

(** * Further properties: the retry operation *)

(** X3.  [scrobble_with_retry] never raises and never touches the log
    files, whatever the service does and whatever the song holds: it
    returns [(True, None)] or [(False, <a string>)], and the world
    differs by the state of the service only. *)
Theorem scrobble_with_retry_catches_all (song : Song) (max_retries : Z)
    (w : World) :
  ∃ res evs n,
    scrobble_with_retry song max_retries w = (Val res, evs, set_net n w)
    ∧ (res = (true, None) ∨ ∃ s, res = (false, Some s)).
Proof.
  destruct (retry_loop_total song max_retries (seqZ 0 max_retries) w)
    as (res & evs & n & H).
  exists res, evs, n. split; [done|]. by eapply retry_loop_result.
Qed.

(** X4.  A song without ['artistName'], or with it and without
    ['trackName'], fails at the first attempt with the name of the
    missing key in the message, and no remote call is made at all
    ([max_retries >= 1]). *)
Theorem missing_key_makes_no_call (song : Song) (max_retries : Z) (w : World) :
  0 < max_retries →
  (song !! "artistName" = None →
   scrobble_with_retry song max_retries w =
     (Val (false, Some "Unexpected error: 'artistName'"), [], w))
  ∧ (is_Some (song !! "artistName") → song !! "trackName" = None →
     scrobble_with_retry song max_retries w =
       (Val (false, Some "Unexpected error: 'trackName'"), [], w)).
Proof.
  intros Hpos. unfold scrobble_with_retry. rewrite seqZ_cons by done.
  split.
  - intros Ha. simpl. unfold bind at 1, try, network_scrobble, py_getitem.
    by rewrite Ha.
  - intros [a Ha] Ht. simpl.
    unfold bind at 1, try, network_scrobble, py_getitem.
    by rewrite Ha, Ht.
Qed.

(** X5.  Transient errors followed by an error that is not transient:
    the operation sleeps after each transient error, makes no sleep
    after the last call, and returns the failure of the last error. *)
Theorem transient_then_permanent (song : Song) (max_retries : Z) (w : World)
    (es : list exn) (e : exn) (n : Net) :
  well_formed song →
  Forall (λ e, transient e = true) es →
  transient e = false →
  Z.of_nat (length es) < max_retries →
  answers song (net w) (S (length es)) = ((Some <$> es) ++ [Some e], n) →
  ∃ evs,
    scrobble_with_retry song max_retries w =
      (Val (false, Some (failure_message e)), evs, set_net n w)
    ∧ sleeps evs = (λ a, Sleep (60 `min` 2 ^ a)) <$> seqZ 1 (Z.of_nat (length es))
    ∧ calls evs = replicate (S (length es)) (call_event song).
Proof.
  intros Hwf Htr Hperm Hlt Hans. unfold scrobble_with_retry.
  rewrite answers_snoc in Hans.
  destruct (answers song (net w) (length es)) as [rs n1] eqn:Hrs.
  destruct (answer song n1) as [r n2] eqn:Hr.
  injection Hans as Hl ->. apply app_inj_tail in Hl as [-> ->].
  rewrite (seqZ_split 0 max_retries (Z.of_nat (length es))) by lia.
  rewrite (retry_loop_transients _ _ _ _ _ _ _ Hwf Htr Hrs) by lia.
  rewrite retry_loop_step by done. simpl net. rewrite Hr, Hperm.
  rewrite set_net_twice. eexists. split; [done|]. split.
  - unfold sleeps. rewrite List.filter_app.
    fold (sleeps (backoff_events song max_retries 0 es)).
    rewrite sleeps_backoff_events. simpl. by rewrite app_nil_r.
  - unfold calls. rewrite List.filter_app.
    fold (calls (backoff_events song max_retries 0 es)).
    rewrite calls_backoff_events. simpl.
    by rewrite <- replicate_cons_app.
Qed.

Lemma retry_loop_bounds (song : Song) (max_retries : Z) (len : nat) :
  ∀ (a : Z) (w : World), ∃ k : nat,
    sleeps (retry_loop song max_retries (seqZ a (Z.of_nat len)) w).1.2 =
      (λ x, Sleep (backoff x)) <$> seqZ (a + 1) (Z.of_nat k)
    ∧ (k ≤ len)%nat
    ∧ (k = 0%nat ∨ a + Z.of_nat k < max_retries)
    ∧ (length (calls (retry_loop song max_retries
                        (seqZ a (Z.of_nat len)) w).1.2) ≤ len)%nat
    ∧ (length (calls (retry_loop song max_retries
                        (seqZ a (Z.of_nat len)) w).1.2) ≤ S k)%nat.
Proof.
  induction len as [|len IH]; intros a w.
  - exists 0%nat. simpl. repeat split; (done || lia || by left).
  - rewrite Nat2Z.inj_succ, seqZ_cons, Z.pred_succ by lia.
    destruct (decide (well_formed song)) as [Hwf|Hwf].
    + rewrite retry_loop_step by done.
      destruct (answer song (net w)) as [[e|] n];
        [|exists 0%nat; simpl; repeat split; (done || lia || by left)].
      destruct (transient e);
        [|exists 0%nat; simpl; repeat split; (done || lia || by left)].
      destruct (a <? max_retries - 1) eqn:Hlt;
        [|exists 0%nat; simpl; repeat split; (done || lia || by left)].
      apply Z.ltb_lt in Hlt.
      destruct (IH (Z.succ a) (set_net n w)) as (k & Hs & Hk & Hor & Hc1 & Hc2).
      destruct (retry_loop song max_retries (seqZ (Z.succ a) (Z.of_nat len))
                  (set_net n w)) as [[r evs] w'].
      exists (S k). simpl in *. unfold sleeps, calls in *. simpl.
      rewrite Hs, Nat2Z.inj_succ, (seqZ_cons (a + 1)), Z.pred_succ by lia.
      rewrite fmap_cons. replace (Z.succ a + 1) with (Z.succ (a + 1)) by lia.
      repeat split; (done || lia).
    + destruct (key_error_fails_at_once song max_retries a
                  (seqZ (Z.succ a) (Z.of_nat len)) w Hwf) as (key & -> & _).
      exists 0%nat. simpl. repeat split; (done || lia || by left).
Qed.

(** X6.  Whatever the service answers, the operation makes at most
    [max_retries] calls, and its sleeps are the first [k] of the
    schedule [min(60, 2 ** a)], [a = 1, 2, ...], for some
    [k <= max_retries - 1] with at most [k + 1] calls made. *)
Theorem retry_calls_and_sleeps_bounded (song : Song) (max_retries : Z)
    (w : World) :
  ∃ k : nat,
    sleeps (scrobble_with_retry song max_retries w).1.2 =
      (λ a, Sleep (60 `min` 2 ^ a)) <$> seqZ 1 (Z.of_nat k)
    ∧ Z.of_nat k ≤ 0 `max` (max_retries - 1)
    ∧ (length (calls (scrobble_with_retry song max_retries w).1.2) ≤ S k)%nat
    ∧ Z.of_nat (length (calls (scrobble_with_retry song max_retries w).1.2))
      ≤ 0 `max` max_retries.
Proof.
  unfold scrobble_with_retry.
  destruct (retry_loop_bounds song max_retries (Z.to_nat max_retries) 0 w)
    as (k & Hs & Hk & Hor & Hc1 & Hc2).
  replace (seqZ 0 (Z.of_nat (Z.to_nat max_retries)))
    with (seqZ 0 max_retries) in *
    by (destruct (decide (0 ≤ max_retries));
        [by rewrite Z2Nat.id|by rewrite !seqZ_nil by lia]).
  exists k. repeat split; try (done || lia).
Qed.

(** With at least one attempt to make, the loop never falls off its
    end. *)
Lemma retry_loop_never_exhausted (song : Song) (max_retries : Z) (len : nat) :
  ∀ (a : Z) (w : World),
    a + Z.of_nat (S len) = max_retries →
    (retry_loop song max_retries (seqZ a (Z.of_nat (S len))) w).1.1
      ≠ Val (false, Some "Max retries exceeded").
Proof.
  induction len as [|len IH]; intros a w Ha;
    rewrite Nat2Z.inj_succ, seqZ_cons, Z.pred_succ by lia;
    (destruct (decide (well_formed song)) as [Hwf|Hwf];
     [|match goal with
       | |- context [retry_loop _ _ (_ :: ?rest) _] =>
           destruct (key_error_fails_at_once song max_retries a rest w Hwf)
             as (key & Hkey & _)
       end; by rewrite Hkey]);
    rewrite retry_loop_step by done;
    (destruct (answer song (net w)) as [[e|] n]; [|done]);
    (destruct (transient e);
     [|unfold failure_message; by destruct (is_pylast_error (exn_cls e))]).
  - replace (a <? max_retries - 1) with false
      by (symmetry; apply Z.ltb_ge; lia).
    done.
  - replace (a <? max_retries - 1) with true
      by (symmetry; apply Z.ltb_lt; lia).
    specialize (IH (Z.succ a) (set_net n w)).
    destruct (retry_loop song max_retries
                (seqZ (Z.succ a) (Z.of_nat (S len))) (set_net n w))
      as [[r evs] w'].
    apply IH. lia.
Qed.

(** X7.  The last line of the function, [return False, "Max retries
    exceeded"], is reached with [max_retries <= 0] only: with
    [max_retries >= 1] the result is never that failure, so no song of
    a run of [main] is recorded with this message. *)
Theorem max_retries_exceeded_unreachable (song : Song) (max_retries : Z)
    (w : World) :
  0 < max_retries →
  (scrobble_with_retry song max_retries w).1.1
    ≠ Val (false, Some "Max retries exceeded").
Proof.
  intros Hpos. unfold scrobble_with_retry.
  replace max_retries with (Z.of_nat (S (Z.to_nat (max_retries - 1))))
    at 2 by lia.
  apply retry_loop_never_exhausted. lia.
Qed.

(** * Further properties: the slice, the log files *)

(** X8.  [l[start_index:]] is a suffix of [l]: of the last
    [-start_index] items for a negative index, all of [l] when there are
    fewer; of all but the first [start_index] items otherwise, none when
    the index is past the end. *)
Theorem slice_from_suffix {A} (l : list A) (start_index : Z) :
  (∃ pre, l = pre ++ slice_from l start_index)
  ∧ Z.of_nat (length (slice_from l start_index)) =
      if start_index <? 0 then Z.of_nat (length l) `min` (- start_index)
      else 0 `max` (Z.of_nat (length l) - start_index).
Proof.
  unfold slice_from. split.
  - eexists. symmetry. apply take_drop.
  - rewrite length_drop. destruct (start_index <? 0) eqn:Hs.
    + apply Z.ltb_lt in Hs. lia.
    + apply Z.ltb_ge in Hs. lia.
Qed.

(** X9.  With a start index at or past the end of the array (an empty
    array included) the run processes nothing: no call, no sleep, both
    counters 0; the file name is still appended to
    [scrobbled_files.txt], and [failed_songs.json] is left as it is. *)
Theorem start_index_past_end (file_name : string) (file_songs : list Song)
    (start_index : Z) (delay : Q) (w : World) :
  Z.of_nat (length file_songs) ≤ start_index →
  main file_name file_songs start_index delay w =
    (Val initial_state,
     [Echo (AddedNotice (basename file_name));
      Echo (FinishedNotice (basename file_name) 0 0 0)],
     mkWorld (net w) (scrobbled_files w +:+ basename file_name +:+ newline)
       (failed_songs_json w)).
Proof.
  intros Hle.
  assert (slice_from file_songs start_index = []) as Hnil.
  { unfold slice_from.
    replace (start_index <? 0) with false by (symmetry; apply Z.ltb_ge; lia).
    apply drop_ge. lia. }
  unfold main. by rewrite Hnil.
Qed.

(** X10.  Two [append_json] in a row write what one [append_json] of
    the two lists together writes; [append_json] of an empty list
    creates the file, with an empty array, when it does not exist, and
    [main] does not call it then: with no failure the file is not
    created. *)
Theorem append_json_composes (new1 new2 : list Song) (w : World)
    (n : Net) (log : string) :
  (append_json new1 >> append_json new2) w = append_json (new1 ++ new2) w
  ∧ append_json [] (mkWorld n log None) = (Val tt, [], mkWorld n log (Some []))
  ∧ record_failures [] w = (Val tt, [], w).
Proof.
  split; [|done].
  unfold append_json, bind. simpl.
  destruct (failed_songs_json w); by rewrite (assoc_L (++)).
Qed.

Lemma basename_no_slash (p : string) :
  py_in "/" p = false → basename p = p.
Proof.
  destruct p as [|c t]; [done|].
  change (py_in "/" (String c t))
    with (String.prefix "/" (String c t) || py_in "/" t).
  intros [Hc Ht]%orb_false_iff. simpl in *. rewrite Ht.
  destruct (Ascii.ascii_dec "/" c) as [<-|Hne]; [by destruct t|].
  by replace (Ascii.eqb c "/") with false
    by (symmetry; apply Ascii.eqb_neq; congruence).
Qed.

Lemma basename_app (dir name : string) :
  py_in "/" name = false → basename (dir +:+ "/" +:+ name) = name.
Proof.
  intros Hname. induction dir as [|c dir IH].
  - rewrite string_app_nil. change ("/" +:+ name) with (String "/" name).
    simpl. by rewrite Hname.
  - rewrite string_app_cons. simpl.
    replace (py_in "/" (dir +:+ "/" +:+ name)) with true; [done|].
    symmetry. apply py_in_spec. by exists dir, name.
Qed.

(** X11.  The line appended to [scrobbled_files.txt] is the name of the
    file without its directories: what follows the last slash of the
    path, or the whole path when it has no slash. *)
Theorem logged_name_has_no_directory (dir name : string) (n_songs : Z)
    (st : BatchState) (w : World) :
  py_in "/" name = false →
  scrobbled_files (write_results (dir +:+ "/" +:+ name) n_songs st w).2 =
    scrobbled_files w +:+ name +:+ newline
  ∧ scrobbled_files (write_results name n_songs st w).2 =
      scrobbled_files w +:+ name +:+ newline.
Proof.
  intros Hname.
  unfold write_results, record_failures, write_scrobbled_file, append_json,
    bind, echo, emit, ret.
  rewrite basename_app, basename_no_slash by done.
  by destruct (failed_songs st).
Qed.

(** * Further properties: the batch loop *)

Lemma scrobble_first_call_returns (song : Song) (max_retries : Z)
    (w : World) (n : Net) :
  0 < max_retries →
  well_formed song →
  answer song (net w) = (None, n) →
  scrobble_with_retry song max_retries w =
    (Val (true, None), [call_event song], set_net n w).
Proof.
  intros Hpos Hwf Hans. unfold scrobble_with_retry.
  rewrite seqZ_cons by done. rewrite retry_loop_step by done. by rewrite Hans.
Qed.

Lemma jitter_item_events (start_index : Z) (delay : Q) (songs : list Song)
    (i : Z) (song : Song) (res : bool * option string) (st : BatchState) :
  List.filter is_jitter (item_events start_index delay songs i song res st) =
    if consecutive_errors st >? 10 then [] else [SleepJitter delay].
Proof.
  unfold item_events, progress_events, penalty_events, cooldown_events.
  rewrite List.filter_app. by repeat case_match.
Qed.

Lemma main_loop_all_succeed (start_index : Z) (delay : Q)
    (songs todo : list Song) :
  (∀ n a t ts al, ∃ n', remote_scrobble n a t ts al = (None, n')) →
  sleep_accepts delay →
  Forall well_formed todo →
  ∀ i st w, ∃ st' evs n,
    main_loop start_index delay (Z.of_nat (length songs)) i todo st w =
      (Val st', evs, set_net n w)
    ∧ success_count st' = success_count st + Z.of_nat (length todo)
    ∧ error_count st' = error_count st
    ∧ failed_songs st' = failed_songs st
    ∧ calls evs = call_event <$> todo
    ∧ List.filter is_jitter evs = replicate (length todo) (SleepJitter delay).
Proof.
  intros Hok Hsleep. induction 1 as [|song todo Hwf _ IH]; intros i st w.
  - exists st, [], (net w). rewrite set_net_net. simpl.
    repeat split; (done || lia).
  - destruct (Hok (net w) (default JNull (song !! "artistName"))
                (default JNull (song !! "trackName"))
                (py_get song "timestamp" (JInt 1767253534))
                (py_get song "albumName" (JStr EmptyString))) as (n & Hans).
    pose proof (scrobble_first_call_returns song 5 w n eq_refl Hwf Hans)
      as Hres.
    simpl main_loop. unfold bind at 1.
    rewrite (loop_body_ok _ _ _ _ _ _ _ _ _ _ Hres)
      by first [by left | apply Hsleep].
    set (st1 := next_state song (true, None) st).
    change (consecutive_errors st1 >? 10) with false. cbn iota.
    destruct (IH (i + 1) st1 (set_net n w))
      as (st' & evs & n' & -> & Hsucc & Herr & Hfailed & Hcalls & Hjit).
    rewrite set_net_twice. exists st'. eexists. exists n'.
    split; [done|]. simpl in *.
    split; [lia|]. split; [done|]. split; [done|]. split.
    + unfold calls in *. rewrite !List.filter_app.
      fold (calls (item_events start_index delay songs i song (true, None) st1)).
      rewrite calls_item_events. simpl. by rewrite Hcalls.
    + rewrite !List.filter_app, jitter_item_events. simpl. by rewrite Hjit.
Qed.

(** X12.  When every call returns, every item has the two required
    keys and the inter-item sleep accepts the delay, the run makes one
    call per item, in the order of the batch, and one inter-item delay
    per item; every item counts as a success, nothing is recorded as
    failed, and [failed_songs.json] is left as it is. *)
Theorem all_succeed (file_name : string) (file_songs : list Song)
    (start_index : Z) (delay : Q) (w : World) :
  (∀ n a t ts al, ∃ n', remote_scrobble n a t ts al = (None, n')) →
  sleep_accepts delay →
  Forall well_formed (slice_from file_songs start_index) →
  ∃ st evs w',
    main file_name file_songs start_index delay w = (Val st, evs, w')
    ∧ success_count st = Z.of_nat (length (slice_from file_songs start_index))
    ∧ error_count st = 0
    ∧ failed_songs st = []
    ∧ failed_songs_json w' = failed_songs_json w
    ∧ calls evs = call_event <$> slice_from file_songs start_index
    ∧ List.filter is_jitter evs =
        replicate (length (slice_from file_songs start_index))
          (SleepJitter delay).
Proof.
  intros Hok Hsleep Hwf.
  destruct (main_loop_all_succeed start_index delay
              (slice_from file_songs start_index) _ Hok Hsleep Hwf 0
              initial_state w)
    as (st & evs & n & Hloop & Hsucc & Herr & Hfailed & Hcalls & Hjit).
  exists st. eexists. eexists. split.
  { unfold main. rewrite (bind_val _ _ _ _ _ _ Hloop).
    rewrite (bind_val _ _ _ _ _ _ (write_results_spec _ _ _ _)).
    unfold ret. reflexivity. }
  simpl in *. rewrite Hfailed. simpl.
  split; [lia|]. split; [done|]. split; [done|]. split; [done|].
  unfold calls in *. rewrite !List.filter_app, Hcalls, Hjit.
  simpl. by rewrite !app_nil_r.
Qed.

Lemma filter_all {A} (f : A → bool) (l : list A) :
  Forall (λ x, f x = true) l → List.filter f l = l.
Proof.
  induction 1 as [|x l Hx _ IH]; [done|]. simpl. by rewrite Hx, IH.
Qed.

(** The consecutive-error counter is the length of the run of failures
    the history ends with, and that run has 11 items at most. *)
Lemma reach_trailing (start_index : Z) (delay : Q) (songs : list Song)
    (w0 : World) hist todo st stop w :
  reach start_index delay songs w0 hist todo st stop w →
  ∃ before tail,
    hist = before ++ tail
    ∧ Forall (λ p : Song * (bool * option string), p.2.1 = false) tail
    ∧ consecutive_errors st = Z.of_nat (length tail)
    ∧ (before = [] ∨ ∃ b0 p, before = b0 ++ [p] ∧ p.2.1 = true)
    ∧ (length tail ≤ 11)%nat.
Proof.
  induction 1 as [|hist song todo st w res evs1 w1 st' stop evs2 w2 Hprev IH Hres Hafter].
  - exists [], []. repeat split; try done; [by left|simpl; lia].
  - destruct IH as (before & tail & -> & Hall & Hc & Hbefore & _).
    apply reach_invariant in Hprev as (_ & _ & _ & _ & _ & Hstop & _).
    assert (length tail ≤ 10)%nat as Hlen.
    { symmetry in Hstop. rewrite Z.gtb_ltb in Hstop.
      apply Z.ltb_ge in Hstop. lia. }
    apply after_attempt_val_inv in Hafter as (_ & -> & _ & _ & _).
    unfold next_state. destruct res as [[|] msg] eqn:Hr; simpl.
    + exists ((before ++ tail) ++ [(song, (true, msg))]), [].
      rewrite app_nil_r. repeat split; try done; [|simpl; lia].
      right. by exists (before ++ tail), (song, (true, msg)).
    + exists before, (tail ++ [(song, (false, msg))]).
      rewrite (assoc_L (++)), length_app. simpl.
      repeat split; try done; [|lia..].
      apply Forall_app. split; [done|]. by apply Forall_singleton.
Qed.

(** X13.  At every point of a run [consecutive_errors] is the number of
    items processed since the last success (since the start when there
    was none), which all failed. *)
Theorem consecutive_errors_counts_trailing_failures (start_index : Z)
    (delay : Q) (songs : list Song) (w0 : World) hist todo st stop w :
  reach start_index delay songs w0 hist todo st stop w →
  ∃ before tail,
    hist = before ++ tail
    ∧ Forall (λ p : Song * (bool * option string), p.2.1 = false) tail
    ∧ consecutive_errors st = Z.of_nat (length tail)
    ∧ (before = [] ∨ ∃ b0 p, before = b0 ++ [p] ∧ p.2.1 = true).
Proof.
  intros Hr. apply reach_trailing in Hr as (before & tail & H1 & H2 & H3 & H4 & _).
  by exists before, tail.
Qed.

(** X14.  At every point of a run [consecutive_errors] is between 0 and
    11 and at most [error_count], and the iteration ended in [break]
    exactly when it is 11. *)
Theorem consecutive_errors_bounded (start_index : Z) (delay : Q)
    (songs : list Song) (w0 : World) hist todo st stop w :
  reach start_index delay songs w0 hist todo st stop w →
  0 ≤ consecutive_errors st ≤ 11
  ∧ consecutive_errors st ≤ error_count st
  ∧ (stop = true ↔ consecutive_errors st = 11).
Proof.
  intros Hr.
  destruct (reach_trailing _ _ _ _ _ _ _ _ _ Hr)
    as (before & tail & -> & Hall & Hc & _ & Hlen).
  apply reach_invariant in Hr as (_ & _ & Herr & _ & _ & -> & _).
  split; [lia|]. split.
  - rewrite Herr, Hc, List.filter_app, length_app.
    rewrite (filter_all _ tail); [lia|].
    eapply Forall_impl; [exact Hall|]. by intros p ->.
  - rewrite Z.gtb_ltb, Z.ltb_lt. lia.
Qed.

(** X15.  A run that ends has processed every item of the batch, or it
    stopped at 11 consecutive errors: with fewer than 11 errors in all,
    no item is skipped. *)
Theorem run_completes_or_halts_at_eleven (file_name : string)
    (file_songs : list Song) (start_index : Z) (delay : Q) (w w' : World)
    (st : BatchState) (evs : list event) :
  main file_name file_songs start_index delay w = (Val st, evs, w') →
  success_count st + error_count st =
    Z.of_nat (length (slice_from file_songs start_index))
  ∨ (consecutive_errors st = 11 ∧ 11 ≤ error_count st).
Proof.
  intros Hmain.
  apply main_reach in Hmain as (hist & todo & stop & w1 & Hr & Hend).
  destruct (reach_trailing _ _ _ _ _ _ _ _ _ Hr)
    as (before & tail & Hhist & Hall & Hc & _ & Hlen).
  apply reach_invariant in Hr as (Hsongs & Hsucc & Herr & _ & _ & Hstop & _).
  destruct Hend as [->| ->].
  - right. symmetry in Hstop. rewrite Z.gtb_ltb, Z.ltb_lt in Hstop.
    split; [lia|]. rewrite Herr, Hhist, List.filter_app, length_app.
    rewrite (filter_all _ tail); [lia|].
    eapply Forall_impl; [exact Hall|]. by intros p ->.
  - left. rewrite app_nil_r in Hsongs.
    rewrite <- Hsongs, length_fmap, Hsucc, Herr, <- Nat2Z.inj_add.
    by rewrite filter_split_length.
Qed.

Lemma div_500_succ (k : Z) :
  (k + 1) / 500 = k / 500 + (if (k + 1) `mod` 500 =? 0 then 1 else 0).
Proof.
  destruct (Z.eqb_spec ((k + 1) `mod` 500) 0);
    Z.div_mod_to_equations; lia.
Qed.

Lemma timed_sleeps_item_events_success (start_index : Z) (delay : Q)
    (songs : list Song) (i : Z) (song : Song) (msg : option string)
    (st : BatchState) :
  consecutive_errors st = 0 →
  List.filter is_timed_sleep
    (item_events start_index delay songs i song (true, msg) st) =
    if (i + 1) `mod` 500 =? 0 then [Sleep 120] else [].
Proof.
  intros Hc. unfold item_events, progress_events, cooldown_events.
  rewrite Hc, List.filter_app. simpl. by repeat case_match.
Qed.

Lemma main_loop_cooldowns (start_index : Z) (delay : Q)
    (songs todo : list Song) :
  (∀ n a t ts al, ∃ n', remote_scrobble n a t ts al = (None, n')) →
  sleep_accepts delay →
  Forall well_formed todo →
  ∀ i st w,
    List.filter is_timed_sleep
      (main_loop start_index delay (Z.of_nat (length songs)) i todo st w).1.2 =
      replicate (Z.to_nat ((i + Z.of_nat (length todo)) / 500 - i / 500))
        (Sleep 120).
Proof.
  intros Hok Hsleep. induction 1 as [|song todo Hwf _ IH]; intros i st w.
  - simpl. by rewrite Z.add_0_r, Z.sub_diag.
  - destruct (Hok (net w) (default JNull (song !! "artistName"))
                (default JNull (song !! "trackName"))
                (py_get song "timestamp" (JInt 1767253534))
                (py_get song "albumName" (JStr EmptyString))) as (n & Hans).
    pose proof (scrobble_first_call_returns song 5 w n eq_refl Hwf Hans)
      as Hres.
    simpl main_loop. unfold bind at 1.
    rewrite (loop_body_ok _ _ _ _ _ _ _ _ _ _ Hres)
      by first [by left | apply Hsleep].
    set (st1 := next_state song (true, None) st).
    change (consecutive_errors st1 >? 10) with false. cbn iota.
    specialize (IH (i + 1) st1 (set_net n w)).
    destruct (main_loop _ _ _ _ todo _ _) as [[r evs] w'].
    simpl in *. rewrite !List.filter_app, IH.
    rewrite timed_sleeps_item_events_success by done. simpl.
    replace (i + Z.of_nat (S (length todo)))
      with (i + 1 + Z.of_nat (length todo)) by lia.
    rewrite (div_500_succ i).
    assert ((i + 1) / 500 ≤ (i + 1 + Z.of_nat (length todo)) / 500)
      by (apply Z.div_le_mono; lia).
    rewrite (div_500_succ i) in *.
    destruct ((i + 1) `mod` 500 =? 0).
    + replace (Z.to_nat ((i + 1 + Z.of_nat (length todo)) / 500 - i / 500))
        with (S (Z.to_nat ((i + 1 + Z.of_nat (length todo)) / 500
                           - (i / 500 + 1)))) by lia.
      done.
    + by rewrite Z.add_0_r.
Qed.

(** X18.  In a run where every call returns and the inter-item sleep
    accepts the delay, the only sleeps of a whole number of seconds are
    the cooldowns of 120 seconds, one after each 500th item of the
    batch: [n // 500] of them for [n] items. *)
Theorem cooldown_every_500 (file_name : string) (file_songs : list Song)
    (start_index : Z) (delay : Q) (w : World) :
  (∀ n a t ts al, ∃ n', remote_scrobble n a t ts al = (None, n')) →
  sleep_accepts delay →
  Forall well_formed (slice_from file_songs start_index) →
  List.filter is_timed_sleep
    (main file_name file_songs start_index delay w).1.2 =
    replicate
      (Z.to_nat (Z.of_nat (length (slice_from file_songs start_index)) / 500))
      (Sleep 120).
Proof.
  intros Hok Hsleep Hwf.
  pose proof (main_loop_cooldowns start_index delay
                (slice_from file_songs start_index) _ Hok Hsleep Hwf 0
                initial_state w) as Hcd.
  destruct (main_loop_total start_index delay
              (slice_from file_songs start_index) _ Hsleep Hwf 0
              initial_state w)
    as (st & evs1 & n & Hloop).
  unfold main. rewrite (bind_val _ _ _ _ _ _ Hloop).
  rewrite (bind_val _ _ _ _ _ _ (write_results_spec _ _ _ _)).
  rewrite Hloop in Hcd. simpl in *.
  rewrite !List.filter_app, Hcd. unfold flush_events. simpl.
  destruct (failed_songs st); simpl; rewrite ?app_nil_r;
    by rewrite Z.sub_0_r.
Qed.

(** One iteration, whatever the item, the service and the sleep: at
    most 5 calls, then either the iteration completes, or it ends with
    an exception, of the error notice or of the inter-item sleep, and
    no further call. *)
Lemma loop_body_cases (start_index : Z) (delay : Q) (songs : list Song)
    (i : Z) (song : Song) (st : BatchState) (w : World) :
  ∃ res evs1 n,
    (length (calls evs1) ≤ 5)%nat
    ∧ ((loop_body start_index delay (Z.of_nat (length songs)) i song st w =
          (Val (next_state song res st,
                consecutive_errors (next_state song res st) >? 10),
           evs1 ++ item_events start_index delay songs i song res
                     (next_state song res st),
           set_net n w))
       ∨ (∃ e evs2,
            calls evs2 = []
            ∧ loop_body start_index delay (Z.of_nat (length songs))
                i song st w = (Exc e, evs1 ++ evs2, set_net n w))).
Proof.
  destruct (retry_loop_total song 5 (seqZ 0 5) w) as (res & evs1 & n & Hres).
  destruct (retry_loop_bounds song 5 5 0 w) as (k & _ & _ & _ & Hcalls & _).
  change (seqZ 0 (Z.of_nat 5)) with (seqZ 0 5) in Hcalls.
  rewrite Hres in Hcalls. simpl in Hcalls.
  exists res, evs1, n. split; [done|].
  fold (scrobble_with_retry song 5) in Hres.
  unfold loop_body. rewrite (bind_val _ _ _ _ _ _ Hres).
  destruct (decide (res.1 = true ∨ well_formed song)) as [Hok|Hbad].
  - rewrite after_attempt_cases by done.
    destruct (consecutive_errors _ >? 10); [by left|].
    destruct (jitter_sleep delay i) as [e|]; [|by left].
    right. eexists e, _. split; [|done].
    unfold progress_events, penalty_events, item_error_event, calls.
    by repeat case_match.
  - right. assert (¬ well_formed song) as Hwf by tauto.
    destruct res as [[|] msg]; [destruct Hbad; by left|].
    destruct (after_attempt_key_error start_index delay
                (Z.of_nat (length songs)) i song msg st (set_net n w) Hwf)
      as (e & He & Hcls).
    exists e, []. split; [done|]. by rewrite He.
Qed.

Lemma main_loop_calls_bound (start_index : Z) (delay : Q)
    (songs todo : list Song) :
  ∀ i st w,
    (length (calls (main_loop start_index delay (Z.of_nat (length songs))
                      i todo st w).1.2) ≤ 5 * length todo)%nat.
Proof.
  induction todo as [|song todo IH]; intros i st w; [simpl; lia|].
  simpl main_loop. unfold bind at 1.
  destruct (loop_body_cases start_index delay songs i song st w)
    as (res & evs1 & n & Hcalls & [->|(e & evs2 & Hnone & ->)]).
  - destruct (consecutive_errors _ >? 10).
    + simpl. unfold calls in *. rewrite !List.filter_app, !length_app.
      fold (calls (item_events start_index delay songs i song res
                     (next_state song res st))).
      rewrite calls_item_events. simpl. lia.
    + specialize (IH (i + 1) (next_state song res st) (set_net n w)).
      destruct (main_loop _ _ _ _ todo _ _) as [[r evs] w'].
      simpl in *. unfold calls in *. rewrite !List.filter_app, !length_app.
      fold (calls (item_events start_index delay songs i song res
                     (next_state song res st))).
      rewrite calls_item_events. simpl. lia.
  - simpl. unfold calls in *. rewrite List.filter_app, length_app, Hnone.
    simpl. lia.
Qed.

(** X16.  Whatever the service answers and whatever the items hold, a
    run makes at most 5 remote calls for each item of the batch. *)
Theorem run_calls_bounded (file_name : string) (file_songs : list Song)
    (start_index : Z) (delay : Q) (w : World) :
  (length (calls (main file_name file_songs start_index delay w).1.2)
   ≤ 5 * length (slice_from file_songs start_index))%nat.
Proof.
  pose proof (main_loop_calls_bound start_index delay
                (slice_from file_songs start_index)
                (slice_from file_songs start_index) 0 initial_state w) as H.
  unfold main, bind at 1.
  destruct (main_loop _ _ _ _ _ _ _) as [[[st|e] evs] w1]; [|done].
  rewrite (bind_val _ _ _ _ _ _ (write_results_spec _ _ _ _)).
  simpl in *. unfold calls in *. rewrite !List.filter_app, !length_app.
  unfold flush_events. simpl.
  destruct (failed_songs st); simpl; rewrite ?app_nil_r; simpl; lia.
Qed.

(** The loop never touches the log files, however it ends. *)
Lemma main_loop_frame (start_index : Z) (delay : Q) (songs todo : list Song) :
  ∀ i st w r evs w',
    main_loop start_index delay (Z.of_nat (length songs)) i todo st w =
      (r, evs, w') →
    ∃ n, w' = set_net n w.
Proof.
  induction todo as [|song todo IH]; intros i st w r evs w' H.
  - injection H as _ _ <-. exists (net w). by rewrite set_net_net.
  - simpl main_loop in H. unfold bind at 1 in H.
    destruct (loop_body_cases start_index delay songs i song st w)
      as (res & evs1 & n & _ & [Hb|(e' & evs2 & _ & Hb)]); rewrite Hb in H.
    + destruct (consecutive_errors _ >? 10); [injection H as _ _ <-; eauto|].
      destruct (main_loop _ _ _ _ todo _ _) as [[r' evs'] w''] eqn:Hrest.
      injection H as _ _ <-.
      apply IH in Hrest as (n' & ->).
      exists n'. by rewrite set_net_twice.
    + injection H as _ _ <-. eauto.
Qed.

(** X17.  When [main] ends with an exception raised in the loop (the
    [KeyError] of an item that lacks a required key, the error of an
    inter-item sleep), nothing is recorded: neither log file has
    changed, and the failures met before are lost. *)
Theorem aborted_run_records_nothing (file_name : string)
    (file_songs : list Song) (start_index : Z) (delay : Q) (w w' : World)
    (e : exn) (evs : list event) :
  main file_name file_songs start_index delay w = (Exc e, evs, w') →
  scrobbled_files w' = scrobbled_files w
  ∧ failed_songs_json w' = failed_songs_json w.
Proof.
  intros Hmain. unfold main, bind at 1 in Hmain.
  destruct (main_loop _ _ _ _ _ _ _) as [[[st|e'] evs1] w1] eqn:Hloop.
  { rewrite (bind_val _ _ _ _ _ _ (write_results_spec _ _ _ _)) in Hmain.
    done. }
  injection Hmain as -> _ ->.
  by apply main_loop_frame in Hloop as (n & ->).
Qed.

End Program.

(** * Runs with the scripted clients *)

Lemma song_of_well_formed (artist track : string) :
  well_formed (song_of artist track).
Proof. split; eexists; unfold song_of; by simplify_map_eq. Qed.

(** The schedule of the backoff: 2, 4, 8, 16, 32, then 60. *)
Example backoff_schedule :
  backoff <$> seqZ 1 8 = [2; 4; 8; 16; 32; 60; 60; 60].
Proof. reflexivity. Qed.

(** A song without ['artistName']: [scrobble_with_retry] reports the
    [KeyError] as a failure, and the error notice of [main] raises it
    again, outside any [try]. *)
Example missing_artist_aborts :
  ∃ evs w',
    main script scripted accepting_sleep "batch.json" [<["trackName" := JStr "One"]> ∅] 0 (2 # 5)
      (fresh []) = (Exc (Exn KeyError "'artistName'"), evs, w')
    ∧ scrobbled_files w' = EmptyString.
Proof. eexists _, _. split; [vm_compute; reflexivity|reflexivity]. Qed.

(** C1, against the claim as written: a network error whose text has no
    retry code is not retried.  With four attempts left and a script
    whose next call would return, the operation returns the failure
    after one call and no sleep. *)
Lemma network_error_not_retried :
  exn_cls e_reset = NetworkError
  ∧ scrobble_with_retry script scripted song1 5 (fresh [Some e_reset; None]) =
      (Val (false, Some "API error: NetworkError: Connection reset by peer"),
       [call_event song1], fresh [None])
  ∧ sleeps [call_event song1] = [].
Proof. split; [done|]. split; [vm_compute; reflexivity|done]. Qed.

Lemma server_error_retried_witness :
  retry_loop script scripted song1 5 (0 :: seqZ 1 4) (fresh [Some e503; None]) =
    match retry_loop script scripted song1 5 (seqZ 1 4) (fresh [None]) with
    | (r, evs, w') =>
        (r,
         [call_event song1;
          Echo (ServerErrorNotice (0 + 1) 5 (60 `min` 2 ^ (0 + 1)) e503);
          Sleep (60 `min` 2 ^ (0 + 1))] ++ evs,
         w')
    end.
Proof.
  apply (server_error_retried script scripted song1 5 0 (seqZ 1 4)
           (fresh [Some e503; None]) e503 [None]).
  - apply song_of_well_formed.
  - reflexivity.
  - reflexivity.
  - vm_compute; reflexivity.
  - lia.
Defined.

Lemma permanent_error_fails_at_once_witness :
  scrobble_with_retry script scripted song1 5 (fresh [Some e_invalid; None]) =
    (Val (false, Some (failure_message e_invalid)), [call_event song1],
     set_net [None] (fresh [Some e_invalid; None])).
Proof.
  apply (permanent_error_fails_at_once script scripted song1 5
           (fresh [Some e_invalid; None]) e_invalid [None]).
  - apply song_of_well_formed.
  - reflexivity.
  - vm_compute; reflexivity.
  - lia.
Defined.

Lemma retry_backoff_schedule_witness :
  (∃ evs,
     scrobble_with_retry script scripted song1 5
       (fresh [Some e503; Some e503; None]) =
       (Val (true, None), evs,
        set_net [] (fresh [Some e503; Some e503; None]))
     ∧ sleeps evs = [Sleep 2; Sleep 4]
     ∧ calls evs = replicate 3 (call_event song1))
  ∧ (∃ evs e_last,
       last [e503; e503; e503] = Some e_last
       ∧ scrobble_with_retry script scripted song1 3
           (fresh [Some e503; Some e503; Some e503; None]) =
           (Val (false,
                 Some ("Server error after " +:+ pretty 3
                       +:+ " attempts: " +:+ exn_str e_last)),
            evs,
            set_net [None]
              (fresh [Some e503; Some e503; Some e503; None]))
       ∧ sleeps evs = [Sleep 2; Sleep 4]
       ∧ calls evs = replicate 3 (call_event song1)).
Proof.
  split.
  - apply (retry_backoff_schedule script scripted song1 5
             (fresh [Some e503; Some e503; None]) [e503; e503] []).
    + lia.
    + apply song_of_well_formed.
    + repeat constructor.
    + simpl; lia.
    + reflexivity.
  - apply (retry_backoff_schedule script scripted song1 3
             (fresh [Some e503; Some e503; Some e503; None])
             [e503; e503; e503] [None]).
    + lia.
    + apply song_of_well_formed.
    + repeat constructor.
    + reflexivity.
    + reflexivity.
Defined.

Lemma success_resets_consecutive_witness :
  ∃ st1 st2,
    loop_body script scripted accepting_sleep 0 (2 # 5) 2 0 song1 (mkBatch 0 9 [] 9)
      (fresh [None; Some e_invalid]) =
      (Val (st1, false),
       [call_event song1]
       ++ progress_events 0 [song1; song2] 0 st1
       ++ SleepJitter (2 # 5) :: cooldown_events (0 + 1),
       fresh [Some e_invalid])
    ∧ consecutive_errors st1 = 0
    ∧ loop_body script scripted accepting_sleep 0 (2 # 5) 2 (0 + 1) song2 st1
        (fresh [Some e_invalid]) =
        (Val (st2, false),
         [call_event song2]
         ++ item_error_event [song1; song2] (0 + 1) song2
              (Some (failure_message e_invalid))
            :: SleepJitter (2 # 5) :: cooldown_events (0 + 1 + 1),
         fresh [])
    ∧ consecutive_errors st2 = 1.
Proof.
  apply (success_resets_consecutive script scripted accepting_sleep 0 (2 # 5) [song1; song2] 0
           song1 song2 (mkBatch 0 9 [] 9) (fresh [None; Some e_invalid])
           (fresh [Some e_invalid]) (fresh []) None
           (Some (failure_message e_invalid))
           [call_event song1] [call_event song2]).
  - reflexivity.
  - reflexivity.
  - vm_compute; reflexivity.
  - vm_compute; reflexivity.
  - apply song_of_well_formed.
Defined.



Lemma halts_after_eleven_failures_witness :
  ∃ st evs w' pre msg song11,
    main unit rejecting accepting_sleep "batch.json" (replicate 20 song1) 0 (2 # 5)
      (fresh tt) = (Val st, evs, w')
    ∧ error_count st = 11
    ∧ success_count st = 0
    ∧ length (failed_songs st) = 11%nat
    ∧ calls evs = call_event <$> take 11 (slice_from (replicate 20 song1) 0)
    ∧ slice_from (replicate 20 song1) 0 !! 10%nat = Some song11
    ∧ evs = pre
            ++ [item_error_event (slice_from (replicate 20 song1) 0) 10
                  song11 msg;
                Echo (PenaltyNotice 60); Sleep 60; Echo HaltNotice]
            ++ flush_events (slice_from (replicate 20 song1) 0) "batch.json" st.
Proof.
  apply (halts_after_eleven_failures unit rejecting accepting_sleep
           "batch.json" (replicate 20 song1) 0 (2 # 5) (fresh tt)).
  - reflexivity.
  - change (slice_from (replicate 20 song1) 0) with (replicate 20 song1).
    apply Forall_replicate, song_of_well_formed.
  - intros n a t ts al. exists e_invalid, tt. split; [by destruct n|].
    vm_compute; reflexivity.
  - by intros i.
Defined.

Lemma counters_sum_to_processed_witness :
  ∃ st evs w' (hist : list (Song * (bool * option string))) todo,
    main script scripted accepting_sleep "batch.json" [song1; song2; song3] 0 (2 # 5)
      (fresh [None; Some e_invalid; None]) = (Val st, evs, w')
    ∧ (fst <$> hist) ++ todo = slice_from [song1; song2; song3] 0
    ∧ success_count st + error_count st = Z.of_nat (length hist).
Proof.
  destruct (counters_sum_to_processed script scripted accepting_sleep "batch.json"
              [song1; song2; song3] 0 (2 # 5)
              (fresh [None; Some e_invalid; None])) as [Hinv Hend].
  assert (∃ st evs w',
            main script scripted accepting_sleep "batch.json" [song1; song2; song3] 0 (2 # 5)
              (fresh [None; Some e_invalid; None]) = (Val st, evs, w'))
    as (st & evs & w' & Hmain) by (vm_compute; eauto).
  destruct (Hend st evs w' Hmain) as (hist & todo & stop & w1 & Hreach & _).
  destruct (Hinv hist todo st stop w1 Hreach) as (Hsongs & _ & _ & Hsum).
  by exists st, evs, w', hist, todo.
Defined.

Lemma failed_songs_mirror_errors_witness :
  ∃ st evs w' (hist : list (Song * (bool * option string))),
    main script scripted accepting_sleep "batch.json" [song1; song2; song3] 0 (2 # 5)
      (fresh [None; Some e_invalid; None]) = (Val st, evs, w')
    ∧ error_count st = Z.of_nat (length (failed_songs st))
    ∧ failed_songs st =
        (λ p, with_error p.1 p.2.2) <$> List.filter (λ p, negb p.2.1) hist.
Proof.
  destruct (failed_songs_mirror_errors script scripted accepting_sleep "batch.json"
              [song1; song2; song3] 0 (2 # 5)
              (fresh [None; Some e_invalid; None])) as (Hinv & _ & Hend).
  assert (∃ st evs w',
            main script scripted accepting_sleep "batch.json" [song1; song2; song3] 0 (2 # 5)
              (fresh [None; Some e_invalid; None]) = (Val st, evs, w'))
    as (st & evs & w' & Hmain) by (vm_compute; eauto).
  destruct (Hend st evs w' Hmain) as (hist & todo & stop & w1 & Hreach & _).
  destruct (Hinv hist todo st stop w1 Hreach) as (Herr & Hfailed & _).
  by exists st, evs, w', hist.
Defined.

(** A run of two items, the first accepted and the second rejected. *)
Lemma sample_reach :
  reach script scripted accepting_sleep 0 (2 # 5) [song1; song2] (fresh [None; Some e_invalid])
    (([] ++ [(song1, (true, @None string))])
     ++ [(song2, (false, Some (failure_message e_invalid)))])
    []
    (mkBatch 1 1 [with_error song2 (Some (failure_message e_invalid))] 1)
    false (fresh []).
Proof.
  eapply (reach_item script scripted accepting_sleep 0 (2 # 5) [song1; song2] _
            ([] ++ [(song1, (true, @None string))]) song2 []
            (mkBatch 1 0 [] 0) (fresh [Some e_invalid])
            (false, Some (failure_message e_invalid))
            [call_event song2] (fresh [])).
  - eapply (reach_item script scripted accepting_sleep 0 (2 # 5) [song1; song2] _
              [] song1 [song2] initial_state (fresh [None; Some e_invalid])
              (true, None) [call_event song1] (fresh [Some e_invalid])).
    + apply reach_start.
    + vm_compute; reflexivity.
    + vm_compute; reflexivity.
  - vm_compute; reflexivity.
  - vm_compute; reflexivity.
Qed.

Lemma transient_any_case_witness :
  transient (Exn WSError ("Error: " +:+ "Rate Limit" +:+ " exceeded")) = true.
Proof.
  apply (transient_any_case WSError "Error: " "Rate Limit" " exceeded").
  - reflexivity.
  - vm_compute. set_solver.
Defined.

Lemma missing_key_makes_no_call_witness :
  scrobble_with_retry script scripted (<["trackName" := JStr "One"]> ∅) 5
    (fresh [None]) =
    (Val (false, Some "Unexpected error: 'artistName'"), [], fresh [None]).
Proof.
  apply (missing_key_makes_no_call script scripted
           (<["trackName" := JStr "One"]> ∅) 5 (fresh [None])).
  - lia.
  - reflexivity.
Defined.

Lemma transient_then_permanent_witness :
  ∃ evs,
    scrobble_with_retry script scripted song1 5
      (fresh [Some e503; Some e503; Some e_invalid; None]) =
      (Val (false, Some (failure_message e_invalid)), evs,
       set_net [None] (fresh [Some e503; Some e503; Some e_invalid; None]))
    ∧ sleeps evs = [Sleep 2; Sleep 4]
    ∧ calls evs = replicate 3 (call_event song1).
Proof.
  apply (transient_then_permanent script scripted song1 5
           (fresh [Some e503; Some e503; Some e_invalid; None])
           [e503; e503] e_invalid [None]).
  - apply song_of_well_formed.
  - repeat constructor.
  - vm_compute; reflexivity.
  - simpl; lia.
  - reflexivity.
Defined.

Lemma max_retries_exceeded_unreachable_witness :
  (scrobble_with_retry script scripted song1 5
     (fresh [Some e503; Some e503; Some e503; Some e503; Some e503])).1.1
    ≠ Val (false, Some "Max retries exceeded").
Proof.
  apply (max_retries_exceeded_unreachable script scripted song1 5
           (fresh [Some e503; Some e503; Some e503; Some e503; Some e503])).
  lia.
Defined.

Lemma start_index_past_end_witness :
  main script scripted accepting_sleep "../data/batch.json" [song1; song2] 2 (2 # 5)
    (fresh ([None] : script)) =
    (Val initial_state,
     [Echo (AddedNotice (basename "../data/batch.json"));
      Echo (FinishedNotice (basename "../data/batch.json") 0 0 0)],
     mkWorld (net (fresh ([None] : script)))
       (scrobbled_files (fresh ([None] : script)) +:+ basename "../data/batch.json"
        +:+ newline)
       (failed_songs_json (fresh ([None] : script)))).
Proof.
  apply (start_index_past_end script scripted accepting_sleep "../data/batch.json"
           [song1; song2] 2 (2 # 5) (fresh ([None] : script))).
  simpl; lia.
Defined.

Lemma logged_name_has_no_directory_witness :
  scrobbled_files
    (write_results script ("../data" +:+ "/" +:+ "batch.json") 2
       initial_state (fresh ([] : script))).2 =
    scrobbled_files (fresh ([] : script)) +:+ "batch.json" +:+ newline
  ∧ scrobbled_files
      (write_results script "batch.json" 2 initial_state (fresh ([] : script))).2 =
      scrobbled_files (fresh ([] : script)) +:+ "batch.json" +:+ newline.
Proof.
  apply (logged_name_has_no_directory script "../data" "batch.json" 2
           initial_state (fresh ([] : script))).
  reflexivity.
Defined.

Lemma accepting_accepts (n : unit) (a t ts al : json) :
  ∃ n', accepting n a t ts al = (None, n').
Proof. by exists tt. Qed.

Lemma all_succeed_witness :
  ∃ st evs w',
    main unit accepting accepting_sleep "batch.json" (replicate 3 song1) 0 (2 # 5) (fresh tt) =
      (Val st, evs, w')
    ∧ success_count st = Z.of_nat (length (slice_from (replicate 3 song1) 0))
    ∧ error_count st = 0
    ∧ failed_songs st = []
    ∧ failed_songs_json w' = failed_songs_json (fresh tt)
    ∧ calls evs = call_event <$> slice_from (replicate 3 song1) 0
    ∧ List.filter is_jitter evs =
        replicate (length (slice_from (replicate 3 song1) 0))
          (SleepJitter (2 # 5)).
Proof.
  apply (all_succeed unit accepting accepting_sleep "batch.json"
           (replicate 3 song1) 0 (2 # 5) (fresh tt)).
  - apply accepting_accepts.
  - by intros i.
  - change (slice_from (replicate 3 song1) 0) with (replicate 3 song1).
    apply Forall_replicate, song_of_well_formed.
Defined.

Lemma cooldown_every_500_witness :
  List.filter is_timed_sleep
    (main unit accepting accepting_sleep "batch.json" (replicate 1000 song1) 0 (2 # 5)
       (fresh tt)).1.2 =
    replicate
      (Z.to_nat (Z.of_nat (length (slice_from (replicate 1000 song1) 0)) / 500))
      (Sleep 120).
Proof.
  apply (cooldown_every_500 unit accepting accepting_sleep "batch.json"
           (replicate 1000 song1) 0 (2 # 5) (fresh tt)).
  - apply accepting_accepts.
  - by intros i.
  - change (slice_from (replicate 1000 song1) 0) with (replicate 1000 song1).
    apply Forall_replicate, song_of_well_formed.
Defined.

Lemma consecutive_errors_counts_trailing_failures_witness :
  ∃ before tail,
    ([] ++ [(song1, (true, @None string))])
    ++ [(song2, (false, Some (failure_message e_invalid)))] = before ++ tail
    ∧ Forall (λ p : Song * (bool * option string), p.2.1 = false) tail
    ∧ consecutive_errors
        (mkBatch 1 1 [with_error song2 (Some (failure_message e_invalid))] 1)
      = Z.of_nat (length tail)
    ∧ (before = [] ∨ ∃ b0 p, before = b0 ++ [p] ∧ p.2.1 = true).
Proof.
  exact (consecutive_errors_counts_trailing_failures script scripted accepting_sleep 0 (2 # 5)
           [song1; song2] (fresh [None; Some e_invalid]) _ _ _ _ _
           sample_reach).
Defined.

Lemma consecutive_errors_bounded_witness :
  0 ≤ consecutive_errors
        (mkBatch 1 1 [with_error song2 (Some (failure_message e_invalid))] 1)
    ≤ 11
  ∧ consecutive_errors
      (mkBatch 1 1 [with_error song2 (Some (failure_message e_invalid))] 1)
    ≤ error_count
        (mkBatch 1 1 [with_error song2 (Some (failure_message e_invalid))] 1)
  ∧ (false = true ↔
     consecutive_errors
       (mkBatch 1 1 [with_error song2 (Some (failure_message e_invalid))] 1)
     = 11).
Proof.
  exact (consecutive_errors_bounded script scripted accepting_sleep 0 (2 # 5)
           [song1; song2] (fresh [None; Some e_invalid]) _ _ _ _ _
           sample_reach).
Defined.

Lemma run_completes_or_halts_at_eleven_witness :
  ∃ st,
    (main script scripted accepting_sleep "batch.json" [song1; song2; song3] 0 (2 # 5)
       (fresh [None; Some e_invalid; None])).1.1 = Val st
    ∧ (success_count st + error_count st =
         Z.of_nat (length (slice_from [song1; song2; song3] 0))
       ∨ (consecutive_errors st = 11 ∧ 11 ≤ error_count st)).
Proof.
  assert (∃ st evs w',
            main script scripted accepting_sleep "batch.json" [song1; song2; song3] 0 (2 # 5)
              (fresh [None; Some e_invalid; None]) = (Val st, evs, w'))
    as (st & evs & w' & Hmain) by (vm_compute; eauto).
  exists st. split; [by rewrite Hmain|].
  exact (run_completes_or_halts_at_eleven script scripted accepting_sleep "batch.json"
           [song1; song2; song3] 0 (2 # 5) _ _ _ _ Hmain).
Defined.

Lemma aborted_run_records_nothing_witness :
  ∃ e (w' : world script),
    (main script scripted accepting_sleep "batch.json"
       [song1; <["trackName" := JStr "Two"]> ∅] 0 (2 # 5)
       (fresh [Some e_invalid])).1.1 = Exc e
    ∧ scrobbled_files w' = scrobbled_files (fresh [Some e_invalid])
    ∧ failed_songs_json w' = failed_songs_json (fresh [Some e_invalid]).
Proof.
  assert (∃ e evs w',
            main script scripted accepting_sleep "batch.json"
              [song1; <["trackName" := JStr "Two"]> ∅] 0 (2 # 5)
              (fresh [Some e_invalid]) = (Exc e, evs, w'))
    as (e & evs & w' & Hmain) by (vm_compute; eauto).
  exists e, w'. split; [by rewrite Hmain|].
  exact (aborted_run_records_nothing script scripted accepting_sleep
           "batch.json" [song1; <["trackName" := JStr "Two"]> ∅] 0 (2 # 5)
           _ _ _ _ Hmain).
Defined.

Lemma retried_iff_code_in_text_witness :
  (is_pylast_error (exn_cls e503) = true
   ∧ ∃ code pre post,
       code ∈ retry_codes ∧ lower (exn_str e503) = pre +:+ code +:+ post)
  ↔ retry_loop script scripted song1 5 (0 :: seqZ 1 4)
      (fresh [Some e503; None]) =
      match retry_loop script scripted song1 5 (seqZ 1 4)
              (set_net [None] (fresh [Some e503; None])) with
      | (r, evs, w') =>
          (r,
           [call_event song1;
            Echo (ServerErrorNotice (0 + 1) 5 (60 `min` 2 ^ (0 + 1)) e503);
            Sleep (60 `min` 2 ^ (0 + 1))] ++ evs,
           w')
      end.
Proof.
  apply (retried_iff_code_in_text script scripted song1 5 0 (seqZ 1 4)
           (fresh [Some e503; None]) e503 [None]).
  - apply song_of_well_formed.
  - reflexivity.
  - lia.
Defined.
